(** * csv_header.py: header resolution of [CSVParser]

    A shallow embedding of [CSVParser.find_header_row] and of the part of
    [CSVParser.parse_csv] that follows [pd.read_csv], together with the
    properties of the header-resolution algorithm.

    Modelling choices.
    - A [DataFrame] read with [header=None] is a list of rows, the label of
      a row being its position; a row is the list [row.values.tolist()],
      and a cell is [None] when [pd.notna] is false and [Some s] otherwise,
      [s] being the text [str(col)].
    - The header dictionaries are association lists in insertion order
      (iteration order of a Python [dict]); [collected_headers], which is
      only looked up and updated by key, is a [gmap].
    - Python text is modelled by [string]; [str.strip], [str.lower] and
      [str.replace] are written out on the ASCII range (other bytes are
      left alone).
    - [list.index], [list.remove] and [next] raise in Python when nothing is
      found; they are modelled in an exception monad, and [parse_csv] turns
      a raised exception into its [except] branch. *)

From Stdlib Require Import Ascii String ZArith.
From stdpp Require Import gmap strings list pretty.

Local Open Scope string_scope.
Local Open Scope list_scope.

(** ** Python built-ins used by the source *)

Module Py.

Inductive exn := ValueError | StopIteration.

Inductive result (A : Type) :=
| Ok (a : A)
| Raise (e : exn).
Arguments Ok {A} a.
Arguments Raise {A} e.

Definition bind {A B} (m : result A) (k : A → result B) : result B :=
  match m with
  | Ok a => k a
  | Raise e => Raise e
  end.

(** [str.isspace] on ASCII: TAB..CR, FS..US and the blank. White space
    outside ASCII, which [str.strip] removes as well, is not modelled. *)
Definition isspace (c : ascii) : bool :=
  let n := nat_of_ascii c in
  ((9 <=? n) && (n <=? 13) || (28 <=? n) && (n <=? 32))%nat.

Definition lower_char (c : ascii) : ascii :=
  let n := nat_of_ascii c in
  if ((65 <=? n) && (n <=? 90))%nat then ascii_of_nat (n + 32) else c.

(** [s.lower()], for the letters A..Z; letters outside ASCII, which
    [str.lower] lowers as well, are left as they are. *)
Fixpoint lower (s : string) : string :=
  match s with
  | EmptyString => EmptyString
  | String c s' => String (lower_char c) (lower s')
  end.

Fixpoint lstrip (s : string) : string :=
  match s with
  | EmptyString => EmptyString
  | String c s' => if isspace c then lstrip s' else s
  end.

Fixpoint rstrip (s : string) : string :=
  match s with
  | EmptyString => EmptyString
  | String c s' =>
      match rstrip s' with
      | EmptyString => if isspace c then EmptyString else String c EmptyString
      | r => String c r
      end
  end.

(** [s.strip()] *)
Definition strip (s : string) : string := rstrip (lstrip s).

(** [s.replace('\n', ' ')]: the pattern is one character long, so the
    replacement acts character by character. *)
Fixpoint replace_newline (s : string) : string :=
  match s with
  | EmptyString => EmptyString
  | String c s' =>
      String (if Ascii.eqb c "010"%char then " "%char else c)
             (replace_newline s')
  end.

(** [l.index(x)]: position of the first element equal to [x];
    [ValueError] when there is none. *)
Fixpoint index {A} `{EqDecision A} (x : A) (l : list A) : result nat :=
  match l with
  | [] => Raise ValueError
  | y :: l' =>
      if decide (y = x) then Ok 0
      else bind (index x l') (λ j, Ok (S j))
  end.

(** [l.remove(x)]: drops the first element equal to [x]; [ValueError]
    when there is none. *)
Fixpoint remove {A} `{EqDecision A} (x : A) (l : list A) : result (list A) :=
  match l with
  | [] => Raise ValueError
  | y :: l' =>
      if decide (y = x) then Ok l'
      else bind (remove x l') (λ r, Ok (y :: r))
  end.

(** [next(g)] on a generator whose remaining items are [l]. *)
Definition next {A} (l : list A) : result A :=
  match l with
  | [] => Raise StopIteration
  | x :: _ => Ok x
  end.

(** A [for] loop whose body may raise, threading the loop state. *)
Fixpoint for_each {S B} (body : S → B → result S) (st : S) (l : list B)
  : result S :=
  match l with
  | [] => Ok st
  | x :: l' => bind (body st x) (λ st', for_each body st' l')
  end.

End Py.

Import Py.

(** The exception monad, with stdpp's [x ← m; k] notation. *)
#[global] Instance result_ret : MRet result := @Ok.
#[global] Instance result_bind : MBind result := λ A B k m, Py.bind m k.

(** ** Data model *)

(** A cell of the frame: [None] is a missing value ([pd.notna] false),
    [Some s] a present value whose [str] is [s]. *)
Abbreviation cell := (option string).

Abbreviation dataframe := (list (list cell)).

(** A header dictionary: header name ↦ list of aliases, in insertion order. *)
Abbreviation headers_dict := (list (string * list string)).

Record CSVParser := {
  required_headers : headers_dict;
  optional_headers : headers_dict;
  max_rows : Z
}.

(** [CSVParser(headers)] with the default [max_rows=5]. *)
Definition default_max_rows : Z := 5.

(** [dataframe.head(n)]: the first [n] rows, and all rows but the last
    [-n] when [n] is negative. *)
Definition df_head (n : Z) (df : dataframe) : dataframe :=
  if (0 <=? n)%Z then take (Z.to_nat n) df
  else take (length df - Z.to_nat (- n)) df.

(** The loop state of [find_header_row]. *)
Record scan_state := {
  collected_headers : gmap string nat;
  missing_required_headers : list string;
  last_match_row : option nat
}.

(** The tuple returned by [find_header_row]. *)
Record header_row_result := {
  header_start_row : option nat;
  header_indices : list (string * nat);
  missing_headers : list string;
  optional_indices : list (string * nat)
}.

(** What [parse_csv] returns: one of its two error dictionaries, or the
    dictionary of the resolved mapping. *)
Inductive parse_result :=
| error (message : string)
| error_occurred (e : exn)
| parsed (header_start_row : option nat)
         (header_indices optional_indices : list (string * nat)).

(** ** find_header_row *)

(** [str(col).strip().lower().replace('\n', ' ') if pd.notna(col) else None] *)
Definition normalize_cell (col : cell) : cell :=
  match col with
  | Some s => Some (replace_newline (lower (strip s)))
  | None => None
  end.

Definition normalize_row (row : list cell) : list cell :=
  normalize_cell <$> row.

(** [x in header_row] for a text [x]. *)
Definition in_row (x : string) (header_row : list cell) : bool :=
  bool_decide (Some x ∈ header_row).

(** [any(alias.lower() in header_row for alias in aliases)] *)
Definition any_alias (aliases : list string) (header_row : list cell) : bool :=
  existsb (λ alias, in_row (lower alias) header_row) aliases.

(** [(alias.lower() for alias in aliases if alias.lower() in header_row)] *)
Definition alias_matches (aliases : list string) (header_row : list cell)
  : list string :=
  lower <$> filter (λ alias, Some (lower alias) ∈ header_row) aliases.

(** The three statements shared by both branches of the required loop. *)
Definition collect_required (header : string) (j i : nat) (st : scan_state)
  : result scan_state :=
  missing ←
    (if bool_decide (header ∈ missing_required_headers st)
     then remove header (missing_required_headers st)
     else Ok (missing_required_headers st));
  Ok {| collected_headers := <[header := j]> (collected_headers st);
        missing_required_headers := missing;
        last_match_row := Some i |}.

(** The two statements shared by both branches of the optional loop. *)
Definition collect_optional (header : string) (j i : nat) (st : scan_state)
  : scan_state :=
  {| collected_headers := <[header := j]> (collected_headers st);
     missing_required_headers := missing_required_headers st;
     last_match_row := Some i |}.

(** Body of [for header, aliases in self.required_headers.items()]. *)
Definition match_required (i : nat) (header_row : list cell)
    (st : scan_state) (item : string * list string) : result scan_state :=
  let '(header, aliases) := item in
  let normalized_header := lower (strip header) in
  if in_row normalized_header header_row
     && bool_decide (collected_headers st !! header = None) then
    j ← index (Some normalized_header) header_row;
    collect_required header j i st
  else if any_alias aliases header_row then
    alias_match ← next (alias_matches aliases header_row);
    j ← index (Some alias_match) header_row;
    collect_required header j i st
  else Ok st.

(** Body of [for header, aliases in self.optional_headers.items()]. *)
Definition match_optional (i : nat) (header_row : list cell)
    (st : scan_state) (item : string * list string) : result scan_state :=
  let '(header, aliases) := item in
  let normalized_header := lower (strip header) in
  if in_row normalized_header header_row
     && bool_decide (collected_headers st !! header = None) then
    j ← index (Some normalized_header) header_row;
    Ok (collect_optional header j i st)
  else if any_alias aliases header_row then
    alias_match ← next (alias_matches aliases header_row);
    j ← index (Some alias_match) header_row;
    Ok (collect_optional header j i st)
  else Ok st.

(** Body of [for i, row in dataframe.head(self.max_rows).iterrows()]. *)
Definition scan_row (self : CSVParser) (i : nat) (row : list cell)
    (st : scan_state) : result scan_state :=
  let header_row := normalize_row row in
  st ← for_each (match_required i header_row) st (required_headers self);
  for_each (match_optional i header_row) st (optional_headers self).

(** The row loop, [i] being the label of the first row of [rows]. *)
Fixpoint iterrows (self : CSVParser) (i : nat) (rows : dataframe)
    (st : scan_state) : result scan_state :=
  match rows with
  | [] => Ok st
  | row :: rows' =>
      st' ← scan_row self i row st;
      iterrows self (S i) rows' st'
  end.

Definition initial_state (self : CSVParser) : scan_state :=
  {| collected_headers := ∅;
     missing_required_headers := (required_headers self).*1;
     last_match_row := None |}.

(** [{key: collected_headers[key] for key in d if key in collected_headers}] *)
Definition indices_of (d : headers_dict) (collected : gmap string nat)
  : list (string * nat) :=
  omap (λ key, (λ j, (key, j)) <$> collected !! key) d.*1.

Definition find_header_row (self : CSVParser) (df : dataframe)
  : result header_row_result :=
  st ← iterrows self 0 (df_head (max_rows self) df) (initial_state self);
  let header_start_row := S <$> last_match_row st in
  if bool_decide (dom (collected_headers st)
                    ∩ list_to_set (required_headers self).*1 = (∅ : gset string))
  then
    Ok {| header_start_row := None;
          header_indices := [];
          missing_headers := missing_required_headers st;
          optional_indices := [] |}
  else
    Ok {| header_start_row := header_start_row;
          header_indices :=
            indices_of (required_headers self) (collected_headers st);
          missing_headers := missing_required_headers st;
          optional_indices :=
            indices_of (optional_headers self) (collected_headers st) |}.

(** [', '.join(l)] *)
Fixpoint join_comma (l : list string) : string :=
  match l with
  | [] => ""
  | [x] => x
  | x :: l' => x +:+ ", " +:+ join_comma l'
  end.

(** [parse_csv] from the frame on: [df] is what [pd.read_csv] returned. *)
Definition parse_csv (self : CSVParser) (df : dataframe) : parse_result :=
  match find_header_row self df with
  | Raise e => error_occurred e
  | Ok r =>
      if bool_decide (0 < length (missing_headers r)) then
        error ("Required headers not found: " +:+ join_comma (missing_headers r))
      else
        parsed (header_start_row r) (header_indices r) (optional_indices r)
  end.

(** ** Vocabulary of the properties *)

(** The text by which [item] is matched in [header_row], the dictionary
    of collected headers being [collected]: the normalized header when it is
    in the row and the header is not collected yet, otherwise the first
    alias (lowercased) that is in the row. *)
Definition matched_name (header_row : list cell)
    (collected : gmap string nat) (item : string * list string)
  : option string :=
  let '(header, aliases) := item in
  if in_row (lower (strip header)) header_row
     && bool_decide (collected !! header = None)
  then Some (lower (strip header))
  else if any_alias aliases header_row
       then head (alias_matches aliases header_row)
       else None.

(** All declared fields, in the order in which a row is matched against
    them: the required ones, then the optional ones. *)
Definition fields (self : CSVParser) : headers_dict :=
  required_headers self ++ optional_headers self.

(** The keys of a Python dictionary are pairwise distinct, and a schema
    declares no header as both required and optional. *)
Definition unique_names (self : CSVParser) : Prop :=
  NoDup (fields self).*1.

(** Whether matching [item] against the row records a column for it. *)
Definition fires (hr : list cell) (collected : gmap string nat)
    (item : string * list string) : bool :=
  match matched_name hr collected item with
  | Some _ => true
  | None => false
  end.

(** [v] is the entry of [item] after matching it against the row: the
    column of the matched name, or the entry it had. *)
Definition records (hr : list cell) (collected : gmap string nat)
    (item : string * list string) (v : option nat) : Prop :=
  match matched_name hr collected item with
  | Some x => ∃ j, index (Some x) hr = Ok j ∧ v = Some j
  | None => v = collected !! item.1
  end.

(** What both loop bodies do to [collected_headers] and
    [last_match_row]. *)
Definition matching_step (i : nat) (hr : list cell)
    (body : scan_state → string * list string → result scan_state) : Prop :=
  ∀ st item, ∃ st', body st item = Ok st' ∧
    match matched_name hr (collected_headers st) item with
    | Some x => ∃ j, index (Some x) hr = Ok j
        ∧ collected_headers st' = <[item.1 := j]> (collected_headers st)
        ∧ last_match_row st' = Some i
    | None => st' = st
    end.

(** The list of missing headers is the list of required headers that are
    not collected, in declaration order. *)
Definition missing_ok (self : CSVParser) (st : scan_state) : Prop :=
  missing_required_headers st
  = filter (λ h, collected_headers st !! h = None) (required_headers self).*1.

(** The row holds the normalized header of [item] or one of its aliases. *)
Definition names_field (hr : list cell) (item : string * list string) : bool :=
  in_row (lower (strip item.1)) hr || any_alias item.2 hr.

(** Some row of [rows] names [item]. *)
Definition seen (rows : dataframe) (item : string * list string) : bool :=
  existsb (λ row, names_field (normalize_row row) item) rows.

(** Scanning [row] after the rows [pre] records a column for [item]: the
    row holds an alias of the field, or its header while no row of [pre]
    names the field. *)
Definition row_records_field (pre : dataframe) (row : list cell)
    (item : string * list string) : bool :=
  in_row (lower (strip item.1)) (normalize_row row) && negb (seen pre item)
  || any_alias item.2 (normalize_row row).

Definition row_records (self : CSVParser) (pre : dataframe) (row : list cell)
  : bool :=
  existsb (row_records_field pre row) (fields self).

(** [o] is the label of the last row of [rows] that satisfies [f], if
    there is one; [f] is given the rows before the row, and the row. *)
Definition last_row_with (f : dataframe → list cell → bool) (rows : dataframe)
    (o : option nat) : Prop :=
  match o with
  | None =>
      ∀ k row, rows !! k = Some row → f (take k rows) row = false
  | Some i =>
      (∃ row, rows !! i = Some row ∧ f (take i rows) row = true)
      ∧ ∀ k row, i < k → rows !! k = Some row → f (take k rows) row = false
  end.

(** [o] is the label of the last row of [rows] whose scan records a
    column, if there is one. *)
Definition last_recording (self : CSVParser) (rows : dataframe)
    (o : option nat) : Prop :=
  last_row_with (row_records self) rows o.

(** The state after the rows [pre], for a schema with distinct names. *)
Record scan_inv (self : CSVParser) (pre : dataframe) (st : scan_state)
  : Prop := {
  inv_collected : ∀ item, item ∈ fields self →
    bool_decide (collected_headers st !! item.1 = None) = negb (seen pre item);
  inv_other : ∀ h, h ∉ (fields self).*1 → collected_headers st !! h = None;
  inv_missing : missing_ok self st;
  inv_last : last_recording self pre (last_match_row st)
}.

(** [find_header_row] read from the final state of the scan. *)
Definition result_of (self : CSVParser) (st : scan_state)
  : header_row_result :=
  if bool_decide (dom (collected_headers st)
                    ∩ list_to_set (required_headers self).*1 = (∅ : gset string))
  then {| header_start_row := None;
          header_indices := [];
          missing_headers := missing_required_headers st;
          optional_indices := [] |}
  else {| header_start_row := S <$> last_match_row st;
          header_indices :=
            indices_of (required_headers self) (collected_headers st);
          missing_headers := missing_required_headers st;
          optional_indices :=
            indices_of (optional_headers self) (collected_headers st) |}.

(** No row of [rows] names a required field. *)
Definition no_required_named (self : CSVParser) (rows : dataframe) : bool :=
  forallb (λ row,
    forallb (λ item, negb (names_field (normalize_row row) item))
            (required_headers self)) rows.

(** The scan window of [df]: the rows [find_header_row] iterates over. *)
Definition window (self : CSVParser) (df : dataframe) : dataframe :=
  df_head (max_rows self) df.

(** The result [find_header_row] returns through its first [return]. *)
Definition no_headers (missing : list string) : header_row_result :=
  {| header_start_row := None;
     header_indices := [];
     missing_headers := missing;
     optional_indices := [] |}.

(** The message of the first error dictionary of [parse_csv]. *)
Definition not_found (missing : list string) : string :=
  "Required headers not found: " +:+ join_comma missing.

(** A schema without required headers, and a frame whose first row holds
    its optional header. *)
Definition optional_only : CSVParser :=
  {| required_headers := [];
     optional_headers := [("Notes", ["description"])];
     max_rows := default_max_rows |}.

Definition notes_frame : dataframe :=
  [[Some "Notes"]; [Some "to be painted"]].

(** The statement on schemas without required headers, as the
    specification words it: the start row is unset exactly when no optional
    header matched, and a matching optional header is reported with a start
    row. *)
Definition empty_required_claim (self : CSVParser) (df : dataframe) : Prop :=
  required_headers self = [] →
  ∃ start req opt,
    parse_csv self df = parsed start req opt
    ∧ (start = None ↔
       ∀ item, item ∈ optional_headers self → seen (window self df) item = false)
    ∧ (∀ item, item ∈ optional_headers self →
         seen (window self df) item = true →
         is_Some start ∧ ∃ j, (item.1, j) ∈ opt).

(** The schema of the specification's scenarios, with an optional header,
    and a frame that holds only the optional one. *)
Definition address_price : CSVParser :=
  {| required_headers := [("Address", []); ("Price", ["cost"])];
     optional_headers := [("Notes", ["description"])];
     max_rows := default_max_rows |}.

(** The required headers that no row of [rows] names, in declaration
    order. *)
Definition unmatched (self : CSVParser) (rows : dataframe) : list string :=
  (filter (λ item, seen rows item = false) (required_headers self)).*1.

(** [row], coming after the rows [pre], is the first row that names
    [item]. *)
Definition first_match (pre : dataframe) (row : list cell)
    (item : string * list string) : bool :=
  names_field (normalize_row row) item && negb (seen pre item).

(** The row contributes a match: some field, required or optional, is
    matched by it for the first time. *)
Definition row_contributes (self : CSVParser) (pre : dataframe)
    (row : list cell) : bool :=
  existsb (first_match pre row) (fields self).

Definition last_contributing (self : CSVParser) (rows : dataframe)
    (o : option nat) : Prop :=
  last_row_with (row_contributes self) rows o.

(** No row holds an alias of a field that an earlier row names. *)
Definition no_alias_rematch (self : CSVParser) (rows : dataframe) : bool :=
  forallb (λ k,
    match rows !! k with
    | Some row =>
        forallb (λ item, negb (any_alias item.2 (normalize_row row)
                               && seen (take k rows) item))
                (fields self)
    | None => true
    end) (seq 0 (length rows)).

(** The statement on the start row, as the specification words it: one
    past the last row of the window that contributed a match, and unset
    when no row did. *)
Definition data_start_row_claim (self : CSVParser) (df : dataframe) : Prop :=
  ∃ r o, find_header_row self df = Ok r
    ∧ last_contributing self (window self df) o
    ∧ header_start_row r = S <$> o.

(** The frames of the specification's scenarios 7 and 8. *)
Definition street_cost_frame : dataframe :=
  [[Some "Street"; Some "Cost"]].

Definition address_price_frame : dataframe :=
  [[Some "Address"; Some "Price"]; [Some "123 Main St"; Some "500000"]].

(** Column [j] of some row of [rows] holds a present cell whose normalized
    text is the normalized header [header] or a lowercased alias of it. *)
Definition present_match (self : CSVParser) (rows : dataframe)
    (header : string) (j : nat) : Prop :=
  ∃ row s aliases,
    row ∈ rows ∧ row !! j = Some (Some s) ∧ (header, aliases) ∈ fields self
    ∧ (replace_newline (lower (strip s)) = lower (strip header)
       ∨ ∃ alias, alias ∈ aliases
                  ∧ replace_newline (lower (strip s)) = lower alias).

(** A cell that is missing, or whose text normalizes to the empty text. *)
Definition blank (col : cell) : Prop :=
  match col with
  | None => True
  | Some s => replace_newline (lower (strip s)) = ""
  end.

(** The statement on blank cells, as the specification words it: in the
    membership tests of [find_header_row], a blank cell of the window is
    equal to no header and to no alias. *)
Definition blank_cells_claim (self : CSVParser) (df : dataframe) : Prop :=
  ∀ row (j : nat) col header aliases,
    row ∈ window self df → row !! j = Some col → blank col →
    (header, aliases) ∈ fields self →
    normalize_cell col ≠ Some (lower (strip header))
    ∧ ∀ alias, alias ∈ aliases → normalize_cell col ≠ Some (lower alias).

(** A schema with an empty alias, and a frame with a cell of blanks. *)
Definition empty_alias : CSVParser :=
  {| required_headers := [("Price", ["cost"; ""])];
     optional_headers := [];
     max_rows := default_max_rows |}.

Definition blanks_frame : dataframe :=
  [[Some "Item"; Some "   "]].

(** A row that holds a header and one of its aliases, a row that holds
    two aliases, and a row that holds an alias twice. *)
Definition price_cost_row : list cell :=
  [Some "COST"; None; Some " Price "].

Definition sale_cost_row : list cell :=
  [Some "Sale Price"; Some "Cost"; Some "Address"].

Definition cost_cost_row : list cell :=
  [None; Some "cost"; Some "Cost "].

Definition price_aliases : CSVParser :=
  {| required_headers := [("Address", ["location"]);
                          ("Price", ["listing price"; "cost"; "sale price"])];
     optional_headers := [("Notes", ["description"])];
     max_rows := default_max_rows |}.

(** The collected columns all come from present cells of [rows]. *)
Definition collected_present (self : CSVParser) (rows : dataframe)
    (st : scan_state) : Prop :=
  ∀ header j, collected_headers st !! header = Some j →
              present_match self rows header j.

(** A schema with one required header and one alias, and a frame whose
    second row holds the alias in another column than the header. *)
Definition price_cost : CSVParser :=
  {| required_headers := [("Price", ["cost"])];
     optional_headers := [];
     max_rows := default_max_rows |}.

Definition price_then_cost_frame : dataframe :=
  [[Some "Price"; Some "Qty"]; [Some "Unit"; Some "Cost"]].

(** The normalization of cells, which the specification applies to headers
    and aliases as well. *)
Definition normalize (s : string) : string :=
  replace_newline (lower (strip s)).

(** The matching rule of the specification: a cell matches a name when
    their normalized texts are equal. *)
Definition matches_normalized (col : cell) (name : string) : Prop :=
  normalize_cell col = Some (normalize name).

(** Texts with a newline inside. *)
Definition newline : string := String "010"%char "".

Definition sale_price_text : string := "sale" +:+ newline +:+ "price".

Definition Sale_Price_text : string := "Sale" +:+ newline +:+ "Price".

(** Schemas whose alias, or header, is declared with a leading blank or
    with a newline inside, and frames that hold the same text. *)
Definition padded_alias : CSVParser :=
  {| required_headers := [("Price", [" cost"])];
     optional_headers := [];
     max_rows := default_max_rows |}.

Definition newline_alias : CSVParser :=
  {| required_headers := [("Price", [sale_price_text])];
     optional_headers := [];
     max_rows := default_max_rows |}.

Definition newline_header : CSVParser :=
  {| required_headers := [(Sale_Price_text, [])];
     optional_headers := [];
     max_rows := default_max_rows |}.

Definition cost_frame : dataframe := [[Some "Item"; Some " cost"]].

Definition sale_price_frame : dataframe :=
  [[Some "Item"; Some sale_price_text]].

(** A schema that declares "Address" both as required and as optional,
    which the specification leaves undefined. *)
Definition shared_name : CSVParser :=
  {| required_headers := [("Address", [])];
     optional_headers := [("Address", ["location"])];
     max_rows := default_max_rows |}.

(** ** The rest of csv_header.py *)

(** Besides [ValueError], the helpers below can end in a [TypeError] (an
    unset start row added to a count) and in an [IndexError] (a column too
    far to the left of the frame); a [ValueError] carries its message. *)
Module Exc.
Inductive t :=
| ValueError (message : string)
| TypeError
| IndexError.
End Exc.

Inductive outcome (A : Type) :=
| Returns (a : A)
| Raises (e : Exc.t).
Arguments Returns {A} a.
Arguments Raises {A} e.

#[global] Instance outcome_ret : MRet outcome := @Returns.
#[global] Instance outcome_bind : MBind outcome := λ A B k m,
  match m with
  | Returns a => k a
  | Raises e => Raises e
  end.

(** [CSVParser.__init__]: [headers.get('required', {})] and
    [headers.get('optional', {})]. *)
Definition __init__ (headers : gmap string headers_dict) (max_rows : Z)
  : CSVParser :=
  {| required_headers := default [] (headers !! "required");
     optional_headers := default [] (headers !! "optional");
     max_rows := max_rows |}.

(** A frame with its number of columns, [len(df.columns)]; a frame without
    rows can still have columns. *)
Record DataFrame := {
  len_columns : nat;
  values : dataframe
}.

(** Every row of a frame has one cell per column. *)
Definition frame_ok (df : DataFrame) : Prop :=
  Forall (λ row, length row = len_columns df) (values df).

(** [str(i)] for an integer, and for an index that may be [None]. *)
Definition str_int (z : Z) : string := pretty z.

Definition str_index (index : option Z) : string :=
  match index with
  | Some z => str_int z
  | None => "None"
  end.

(** A bound [a] of a slice, on a sequence of length [n]: a negative bound
    counts from the end, and bounds are clamped to [0..n]. *)
Definition slice_bound (n : nat) (a : Z) : nat :=
  if (a <? 0)%Z then Z.to_nat (a + Z.of_nat n)
  else Z.to_nat (Z.min a (Z.of_nat n)).

(** [l[start:stop]] *)
Definition slice {A} (start stop : Z) (l : list A) : list A :=
  take (slice_bound (length l) stop - slice_bound (length l) start)
       (drop (slice_bound (length l) start) l).

(** An integer position [c] among [n] columns, as [iloc] resolves it:
    negative positions count from the right, and positions outside
    [-n .. n-1] are out of bounds. *)
Definition iloc_position (n : nat) (c : Z) : outcome nat :=
  if ((c <? - Z.of_nat n) || (Z.of_nat n <=? c))%Z then Raises Exc.IndexError
  else Returns (Z.to_nat (if (c <? 0)%Z then c + Z.of_nat n else c)).

(** The cell of a row in column [j]. *)
Definition cell_at (j : nat) (row : list cell) : cell :=
  default None (row !! j).

(** [df.iloc[start:stop, c]], as the list of the values of the series. *)
Definition iloc_rows_column (df : DataFrame) (start stop c : Z)
  : outcome (list cell) :=
  j ← iloc_position (len_columns df) c;
  Returns (cell_at j <$> slice start stop (values df)).

(** [get_x_rows_for_index(df, column_index, header_start_row, x)];
    [header_start_row + x] is a [TypeError] when the start row is [None]. *)
Definition get_x_rows_for_index (df : DataFrame) (column_index : option Z)
    (header_start_row : option Z) (x : Z) : outcome (list cell) :=
  match column_index with
  | None => Raises (Exc.ValueError "Invalid column index provided.")
  | Some c =>
      if (Z.of_nat (len_columns df) <=? c)%Z
      then Raises (Exc.ValueError "Invalid column index provided.")
      else match header_start_row with
           | None => Raises Exc.TypeError
           | Some a => iloc_rows_column df a (a + x) c
           end
  end.

(** The default [x=3] and [rows=3]. *)
Definition default_rows : Z := 3.

(** [d[k] = v] on a dictionary in insertion order: an existing key keeps
    its place. *)
Fixpoint dict_set {K V} `{EqDecision K} (k : K) (v : V) (d : list (K * V))
  : list (K * V) :=
  match d with
  | [] => [(k, v)]
  | (k', v') :: d' =>
      if decide (k' = k) then (k, v) :: d' else (k', v') :: dict_set k v d'
  end.

(** [d.get(k, None)] *)
Fixpoint dict_get {K V} `{EqDecision K} (k : K) (d : list (K * V)) : option V :=
  match d with
  | [] => None
  | (k', v) :: d' => if decide (k' = k) then Some v else dict_get k d'
  end.

(** A value of the dictionary [get_rows_for_indexes] returns: the message
    for an invalid index, or the rows of the column. *)
Inductive column_entry :=
| invalid_column (message : string)
| column_rows (series : list cell).

(** The loop of [get_rows_for_indexes]. *)
Fixpoint rows_for_indexes (df : DataFrame) (column_indexes : list (option Z))
    (header_start_row : option Z) (rows : Z)
    (results : list (option Z * column_entry))
  : outcome (list (option Z * column_entry)) :=
  match column_indexes with
  | [] => Returns results
  | index :: column_indexes' =>
      entry ←
        match index with
        | None =>
            Returns (invalid_column ("Invalid column index: " +:+ str_index index))
        | Some c =>
            if (Z.of_nat (len_columns df) <=? c)%Z
            then Returns (invalid_column
                            ("Invalid column index: " +:+ str_index index))
            else match header_start_row with
                 | None => Raises Exc.TypeError
                 | Some a =>
                     series ← iloc_rows_column df a (a + rows) c;
                     Returns (column_rows series)
                 end
        end;
      rows_for_indexes df column_indexes' header_start_row rows
                       (dict_set index entry results)
  end.

(** [get_rows_for_indexes(df, column_indexes, header_start_row, rows)] *)
Definition get_rows_for_indexes (df : DataFrame)
    (column_indexes : list (option Z)) (header_start_row : option Z) (rows : Z)
  : outcome (list (option Z * column_entry)) :=
  match column_indexes with
  | [] => Raises (Exc.ValueError "No column indexes provided.")
  | _ => rows_for_indexes df column_indexes header_start_row rows []
  end.

(** [series.ffill()]: a missing value takes the last present value before
    it; [last] is that value when the scan reaches the list. *)
Fixpoint ffill_from (last : cell) (series : list cell) : list cell :=
  match series with
  | [] => []
  | Some s :: series' => Some s :: ffill_from (Some s) series'
  | None :: series' => last :: ffill_from last series'
  end.

Definition ffill (series : list cell) : list cell := ffill_from None series.

(** [df.iloc[:, j] = series] *)
Definition set_column (j : nat) (series : list cell) (rows : dataframe)
  : dataframe :=
  zip_with (λ row v, <[j := v]> row) rows series.

(** [forward_fill_column(df, col_index)]: the frame it returns, which is
    the frame it was given, updated in place, and the line it prints. *)
Definition forward_fill_column (df : DataFrame) (col_index : option Z)
  : outcome (DataFrame * string) :=
  match col_index with
  | Some c =>
      if (c <? Z.of_nat (len_columns df))%Z then
        j ← iloc_position (len_columns df) c;
        Returns ({| len_columns := len_columns df;
                    values := set_column j (ffill (cell_at j <$> values df))
                                         (values df) |},
                 "Forward-filled column at index: " +:+ str_index col_index)
      else
        Returns (df, "Column index " +:+ str_index col_index
                     +:+ " is invalid or not found.")
  | None =>
      Returns (df, "Column index " +:+ str_index col_index
                   +:+ " is invalid or not found.")
  end.

(** ** example.py *)

(** The dictionary of headers of the script, and its parser. *)
Definition example_headers : gmap string headers_dict :=
  <["required" :=
      [("Address", ["property address"; "location"; "house address"]);
       ("Price", ["listing price"; "cost"; "sale price"]);
       ("Bedrooms", ["number of bedrooms"; "beds"]);
       ("Bathrooms", ["number of bathrooms"; "baths"])]]>
  (<["optional" :=
      [("Square Footage", ["area"; "size"; "sqft"]);
       ("Year Built", ["construction year"; "built year"]);
       ("Lot Size", ["land size"; "plot size"]);
       ("Garage", ["carport"; "parking"]);
       ("Amenities", ["features"; "extras"]);
       ("Notes", ["description"; "additional info"])]]> ∅).

Definition example_parser : CSVParser := __init__ example_headers 5.

(** What the script prints, one item for each [print]: a line of text, a
    series, or a column of the dictionary of rows. *)
Inductive printed :=
| line (text : string)
| series_value (series : list cell)
| column_block (index : option Z) (entry : column_entry).

(** [result, df = parser.parse_csv(...)]: the successful return is a pair;
    an error dictionary has one key, and unpacking it into two names is a
    [ValueError]. *)
Definition unpack_parse_csv (returned : parse_result)
  : outcome (option nat * list (string * nat) * list (string * nat)) :=
  match returned with
  | parsed header_start_row header_indices optional_indices =>
      Returns (header_start_row, header_indices, optional_indices)
  | error _ | error_occurred _ =>
      Raises (Exc.ValueError "not enough values to unpack (expected 2, got 1)")
  end.

(** [try: ... except ValueError as e: print(e)] *)
Definition except_ValueError (body : outcome (list printed))
  : outcome (list printed) :=
  match body with
  | Raises (Exc.ValueError message) => Returns [line message]
  | _ => body
  end.

(** The script from [parse_csv] on, [df] being the frame that was read;
    the dictionary of a successful return has no "error" key, so the test
    ["error" not in result] holds after the unpacking. *)
Definition main (df : DataFrame) : outcome (list printed) :=
  '(header_start_row, header_indices, _) ←
    unpack_parse_csv (parse_csv example_parser (values df));
  let header_start_row := Z.of_nat <$> header_start_row in
  let address_index := Z.of_nat <$> dict_get "Address" header_indices in
  first ← except_ValueError (
    first_three_addresses ←
      get_x_rows_for_index df address_index header_start_row 3;
    Returns [line (newline +:+ "First three addresses:");
             series_value first_three_addresses]);
  let requested_indexes :=
    [Z.of_nat <$> dict_get "Address" header_indices;
     Z.of_nat <$> dict_get "Price" header_indices;
     Z.of_nat <$> dict_get "Bedrooms" header_indices] in
  second ← except_ValueError (
    rows_for_columns ←
      get_rows_for_indexes df requested_indexes header_start_row 3;
    Returns (line (newline +:+ "Rows for requested columns:")
             :: ((λ '(index, rows), column_block index rows)
                   <$> rows_for_columns)));
  Returns (first ++ second).

(** Inputs for the properties of the window. *)
Definition three_rows_frame : dataframe :=
  [[Some "Report"; None]; [Some "Address"; Some "Cost"];
   [Some "1 Main St"; Some "500000"]].

Definition two_rows : CSVParser :=
  {| required_headers := [("Address", []); ("Price", ["cost"])];
     optional_headers := [("Notes", ["description"])];
     max_rows := 2 |}.

Definition listing_frame : DataFrame :=
  {| len_columns := 3;
     values := [[Some "Address"; Some "Notes"; Some "Cost"];
                [Some "1 Main St"; None; Some "500000"];
                [Some "2 Oak Av"; Some "garden"; None];
                [None; None; Some "700000"]] |}.

(** The schema of the scenarios without its optional header. *)
Definition address_price_only : CSVParser :=
  {| required_headers := [("Address", []); ("Price", ["cost"])];
     optional_headers := [];
     max_rows := default_max_rows |}.

(** A dictionary of headers without the key "required". *)
Definition optional_headers_only : gmap string headers_dict :=
  <["optional" := [("Notes", ["description"])]]> ∅.

(** The entry [get_rows_for_indexes] computes for one index. *)
Definition entry_for (df : DataFrame) (header_start_row : option Z) (rows : Z)
    (index : option Z) : outcome column_entry :=
  match get_x_rows_for_index df index header_start_row rows with
  | Returns series => Returns (column_rows series)
  | Raises (Exc.ValueError _) =>
      Returns (invalid_column ("Invalid column index: " +:+ str_index index))
  | Raises e => Raises e
  end.

(** The exception of the unpacking of an error dictionary. *)
Definition unpacking_error : Exc.t :=
  Exc.ValueError "not enough values to unpack (expected 2, got 1)".

(** A printed column of rows, as opposed to a message for an invalid
    index. *)
Definition is_column_rows (item : printed) : Prop :=
  ∃ j series, item = column_block (Some j) (column_rows series).

(** A frame with the four required headers of the script. *)
Definition houses_frame : DataFrame :=
  {| len_columns := 4;
     values := [[Some "Location"; Some "Beds"; Some "Baths"; Some "Cost"];
                [Some "1 Main St"; Some "3"; Some "2"; Some "500000"];
                [Some "2 Oak Av"; Some "4"; None; Some "700000"]] |}.

(** The keys of a dictionary filled by assigning to the keys of a list in
    turn: every key once, in the order of its first occurrence. *)
Definition add_distinct (j : nat) (keys : list nat) : list nat :=
  if decide (j ∈ keys) then keys else keys ++ [j].

Definition distinct_in_order (l : list nat) : list nat :=
  foldl (λ keys j, add_distinct j keys) [] l.

(** ** Facts about the built-ins *)

Section builtins.
Context {A : Type} `{EqDecision A}.

(** A successful [index] is the first position of the value. *)
Lemma index_Ok_inv (x : A) (l : list A) j :
  index x l = Ok j → l !! j = Some x ∧ ∀ k, k < j → l !! k ≠ Some x.
Proof.
  revert j. induction l as [|y l IH]; intros j; simpl; [done|].
  destruct (decide (y = x)) as [->|Hne].
  - intros [= <-]. split; [done|]. intros k Hk. lia.
  - destruct (index x l) as [j'|e] eqn:Hj; simpl; [|done].
    intros [= <-]. destruct (IH j' eq_refl) as [Hl Hmin].
    split; [done|]. intros [|k] Hk; simpl.
    + congruence.
    + apply Hmin. lia.
Qed.

(** The [in] guard excludes the [ValueError] of [index]. *)
Lemma index_elem_of (x : A) (l : list A) :
  x ∈ l → ∃ j, index x l = Ok j.
Proof.
  induction l as [|y l IH]; [by intros ?%elem_of_nil|].
  intros Hin. simpl. destruct (decide (y = x)) as [->|Hne]; [by eexists|].
  apply elem_of_cons in Hin as [->|Hin]; [done|].
  destruct (IH Hin) as [j ->]. by eexists.
Qed.

Lemma filter_ext_elem_of (P Q : A → Prop)
    `{!∀ x, Decision (P x), !∀ x, Decision (Q x)} (l : list A) :
  (∀ x, x ∈ l → P x ↔ Q x) → filter P l = filter Q l.
Proof.
  induction l as [|y l IH]; intros Hext; [done|].
  assert (filter P l = filter Q l) as Hl.
  { apply IH. intros x Hx. apply Hext. by right. }
  destruct (decide (P y)) as [Hy|Hy].
  - rewrite !filter_cons_True; [by rewrite Hl| |done].
    apply Hext; [by left|done].
  - rewrite !filter_cons_False; [done| |done].
    intros HQ. apply Hy, Hext; [by left|done].
Qed.

Lemma filter_all (P : A → Prop) `{!∀ x, Decision (P x)} (l : list A) :
  (∀ x, x ∈ l → P x) → filter P l = l.
Proof.
  induction l as [|y l IH]; intros Hall; [done|].
  rewrite filter_cons_True; [|apply Hall; by left].
  rewrite IH; [done|]. intros x Hx. apply Hall. by right.
Qed.

(** The [in] guard excludes the [ValueError] of [remove]; on a list
    without duplicates [remove] is a filter. *)
Lemma remove_elem_of (x : A) (l : list A) :
  x ∈ l →
  ∃ r, remove x l = Ok r ∧ (NoDup l → r = filter (λ y, y ≠ x) l).
Proof.
  induction l as [|y l IH]; [by intros ?%elem_of_nil|].
  intros Hin. simpl. destruct (decide (y = x)) as [->|Hne].
  - eexists; split; [done|]. intros [Hx _]%NoDup_cons.
    rewrite filter_cons_False; [|by intros ?].
    symmetry. apply filter_all. intros y Hy ->. done.
  - apply elem_of_cons in Hin as [->|Hin]; [done|].
    destruct (IH Hin) as (r & -> & Hr). eexists; split; [done|].
    intros [_ Hnd]%NoDup_cons. rewrite filter_cons_True; [|done].
    by rewrite Hr.
Qed.

End builtins.

(** ** Loop invariants *)

(** Invariant rule for a [for] loop whose body does not raise: [P pre s]
    relates the state [s] to the items [pre] already iterated over. *)
Lemma for_each_ind {S B} (body : S → B → result S)
    (P : list B → S → Prop) (l0 : list B) (s0 : S) :
  P [] s0 →
  (∀ pre x suf s, l0 = pre ++ x :: suf → P pre s →
     ∃ s', body s x = Ok s' ∧ P (pre ++ [x]) s') →
  ∃ s', for_each body s0 l0 = Ok s' ∧ P l0 s'.
Proof.
  intros Hinit Hstep.
  cut (∀ suf pre s, l0 = pre ++ suf → P pre s →
         ∃ s', for_each body s suf = Ok s' ∧ P l0 s').
  { intros Hgen. by apply (Hgen l0 []). }
  induction suf as [|x suf IH]; intros pre s Heq HP; simpl.
  - rewrite app_nil_r in Heq. subst. by eexists.
  - destruct (Hstep pre x suf s Heq HP) as (s' & -> & HP'). simpl.
    apply (IH (pre ++ [x])); [|done]. by rewrite <-app_assoc.
Qed.

Section iterrows.
Context (self : CSVParser).

(** The same rule for the row loop; the label of a row is the number of
    rows before it. *)
Lemma iterrows_ind (P : dataframe → scan_state → Prop)
    (rows : dataframe) (st0 : scan_state) :
  P [] st0 →
  (∀ pre row suf st, rows = pre ++ row :: suf → P pre st →
     ∃ st', scan_row self (length pre) row st = Ok st'
            ∧ P (pre ++ [row]) st') →
  ∃ st', iterrows self 0 rows st0 = Ok st' ∧ P rows st'.
Proof.
  intros Hinit Hstep.
  cut (∀ suf pre st, rows = pre ++ suf → P pre st →
         ∃ st', iterrows self (length pre) suf st = Ok st' ∧ P rows st').
  { intros Hgen. by apply (Hgen rows []). }
  induction suf as [|row suf IH]; intros pre st Heq HP; simpl.
  - rewrite app_nil_r in Heq. subst. by eexists.
  - destruct (Hstep pre row suf st Heq HP) as (st' & -> & HP'). simpl.
    specialize (IH (pre ++ [row]) st').
    rewrite length_app in IH. simpl in IH.
    replace (length pre + 1) with (S (length pre)) in IH by lia.
    apply IH; [|done]. by rewrite <-app_assoc.
Qed.
End iterrows.

(** ** The name a field is matched by *)

Lemma in_row_true x hr : in_row x hr = true ↔ Some x ∈ hr.
Proof. unfold in_row. apply bool_decide_eq_true. Qed.

Lemma in_row_false x hr : in_row x hr = false ↔ Some x ∉ hr.
Proof. unfold in_row. apply bool_decide_eq_false. Qed.

Lemma any_alias_true aliases hr :
  any_alias aliases hr = true ↔ ∃ alias, alias ∈ aliases ∧ Some (lower alias) ∈ hr.
Proof.
  unfold any_alias. rewrite existsb_exists. split.
  - intros (a & Ha & Hin). exists a. split; [by apply list_elem_of_In|].
    by apply in_row_true.
  - intros (a & Ha & Hin). exists a. split; [by apply list_elem_of_In|].
    by apply in_row_true.
Qed.

Lemma any_alias_false aliases hr :
  any_alias aliases hr = false ↔ ∀ alias, alias ∈ aliases → Some (lower alias) ∉ hr.
Proof.
  rewrite <-not_true_iff_false, any_alias_true. split.
  - intros Hn a Ha Hin. apply Hn. eauto.
  - intros Hall (a & Ha & Hin). by apply (Hall a).
Qed.

(** The generator of matching aliases starts with the first declared alias
    that is in the row. *)
Lemma alias_matches_first aliases hr l1 alias l2 :
  aliases = l1 ++ alias :: l2 →
  (∀ a, a ∈ l1 → Some (lower a) ∉ hr) →
  Some (lower alias) ∈ hr →
  alias_matches aliases hr = lower alias :: alias_matches l2 hr.
Proof.
  intros -> Hl1 Hin. unfold alias_matches.
  induction l1 as [|a l1 IH]; simpl.
  - by rewrite filter_cons_True.
  - rewrite filter_cons_False; [|apply Hl1; by left].
    apply IH. intros a' Ha'. apply Hl1. by right.
Qed.

Lemma alias_matches_elem_of aliases hr x :
  x ∈ alias_matches aliases hr ↔
  ∃ alias, alias ∈ aliases ∧ x = lower alias ∧ Some x ∈ hr.
Proof.
  unfold alias_matches. rewrite list_elem_of_fmap. split.
  - intros (a & -> & Hf). apply list_elem_of_filter in Hf as [Hin Ha].
    by exists a.
  - intros (a & Ha & -> & Hin). exists a. split; [done|].
    by apply list_elem_of_filter.
Qed.

(** The [any] guard excludes the [StopIteration] of [next]. *)
Lemma any_alias_next aliases hr :
  any_alias aliases hr = true →
  ∃ x, alias_matches aliases hr = x :: tail (alias_matches aliases hr).
Proof.
  intros (a & Ha & Hin)%any_alias_true.
  destruct (alias_matches aliases hr) as [|x l] eqn:Heq; [|by eexists].
  assert (lower a ∈ alias_matches aliases hr) as Hm.
  { apply alias_matches_elem_of. by exists a. }
  rewrite Heq in Hm. by apply elem_of_nil in Hm.
Qed.

Lemma matched_name_Some hr collected header aliases x :
  matched_name hr collected (header, aliases) = Some x →
  Some x ∈ hr ∧
  (x = lower (strip header) ∧ collected !! header = None
   ∨ ∃ alias, alias ∈ aliases ∧ x = lower alias).
Proof.
  unfold matched_name.
  destruct (in_row _ hr && _) eqn:Hc.
  - apply andb_true_iff in Hc as [Hin Hnone]. intros [= <-].
    apply in_row_true in Hin. apply bool_decide_eq_true in Hnone. eauto.
  - destruct (any_alias aliases hr) eqn:Ha; [|done].
    intros Hhd. apply head_Some_elem_of in Hhd.
    apply alias_matches_elem_of in Hhd as (a & ? & ? & ?). eauto.
Qed.

(** The decision depends on [collected] through the entry of the header
    alone. *)
Lemma matched_name_ext hr c1 c2 header aliases :
  c1 !! header = c2 !! header →
  matched_name hr c1 (header, aliases) = matched_name hr c2 (header, aliases).
Proof. unfold matched_name. by intros ->. Qed.

(** Both loop bodies, read through [matched_name]. *)
Lemma match_required_eq i hr st item :
  match_required i hr st item =
  match matched_name hr (collected_headers st) item with
  | Some x => j ← index (Some x) hr; collect_required item.1 j i st
  | None => Ok st
  end.
Proof.
  destruct item as [header aliases]. unfold match_required, matched_name.
  destruct (in_row _ hr && _); [done|].
  destruct (any_alias aliases hr) eqn:Ha; [|done].
  destruct (any_alias_next _ _ Ha) as [x ->]. done.
Qed.

Lemma match_optional_eq i hr st item :
  match_optional i hr st item =
  match matched_name hr (collected_headers st) item with
  | Some x => j ← index (Some x) hr; Ok (collect_optional item.1 j i st)
  | None => Ok st
  end.
Proof.
  destruct item as [header aliases]. unfold match_optional, matched_name.
  destruct (in_row _ hr && _); [done|].
  destruct (any_alias aliases hr) eqn:Ha; [|done].
  destruct (any_alias_next _ _ Ha) as [x ->]. done.
Qed.

(** [collect_required] does not raise. *)
Lemma collect_required_Ok header j i st :
  ∃ st', collect_required header j i st = Ok st'
    ∧ collected_headers st' = <[header := j]> (collected_headers st)
    ∧ last_match_row st' = Some i
    ∧ (header ∉ missing_required_headers st →
       missing_required_headers st' = missing_required_headers st)
    ∧ (NoDup (missing_required_headers st) →
       missing_required_headers st'
       = filter (λ y, y ≠ header) (missing_required_headers st)).
Proof.
  unfold collect_required. case_bool_decide as Hin.
  - destruct (remove_elem_of _ _ Hin) as (r & -> & Hr). simpl.
    eexists; split; [done|]. simpl. split_and!; done.
  - eexists; split; [done|]. simpl. split_and!; [done..|].
    intros _. symmetry. apply filter_all. intros y Hy ->. done.
Qed.

(** ** One row of the scan *)

Section field_loop.
Context (i : nat) (hr : list cell).

Lemma match_required_step : matching_step i hr (match_required i hr).
Proof.
  intros st [header aliases]. rewrite match_required_eq.
  destruct (matched_name _ _ _) as [x|] eqn:Hm; [|by eexists].
  apply matched_name_Some in Hm as [Hin _].
  destruct (index_elem_of _ _ Hin) as [j Hj]. rewrite Hj. simpl.
  destruct (collect_required_Ok header j i st) as (st' & -> & Hc & Hl & _).
  exists st'. split; [done|]. by exists j.
Qed.

Lemma match_optional_step : matching_step i hr (match_optional i hr).
Proof.
  intros st [header aliases]. rewrite match_optional_eq.
  destruct (matched_name _ _ _) as [x|] eqn:Hm; [|by eexists].
  apply matched_name_Some in Hm as [Hin _].
  destruct (index_elem_of _ _ Hin) as [j Hj]. rewrite Hj. simpl.
  eexists. split; [done|]. by exists j.
Qed.

(** A loop over fields with distinct names treats every field as if it
    came first. *)
Lemma field_loop_spec body (l : headers_dict) (st : scan_state) :
  matching_step i hr body →
  NoDup l.*1 →
  ∃ st', for_each body st l = Ok st'
    ∧ (∀ h, h ∉ l.*1 → collected_headers st' !! h = collected_headers st !! h)
    ∧ (∀ item, item ∈ l →
         records hr (collected_headers st) item
                 (collected_headers st' !! item.1))
    ∧ last_match_row st'
      = if existsb (fires hr (collected_headers st)) l then Some i
        else last_match_row st.
Proof.
  intros Hbody. revert st.
  induction l as [|[header aliases] l IH]; intros st Hnd.
  { exists st. split_and!; [done..| |done]. by intros ? ?%elem_of_nil. }
  rewrite fmap_cons in Hnd. apply NoDup_cons in Hnd as [Hfresh Hnd].
  destruct (Hbody st (header, aliases)) as (st1 & Hst1 & Hstep).
  destruct (IH st1 Hnd) as (st' & Hloop & Hother & Hrec & Hlast).
  exists st'. simpl. rewrite Hst1. simpl. split; [done|].
  assert (∀ h, h ≠ header →
            collected_headers st1 !! h = collected_headers st !! h) as Hst1ne.
  { intros h Hne. destruct (matched_name _ _ _); [|by subst].
    destruct Hstep as (j & _ & -> & _). by rewrite lookup_insert_ne. }
  assert (∀ item, item ∈ l →
            matched_name hr (collected_headers st1) item
            = matched_name hr (collected_headers st) item) as Hsame.
  { intros [h al] Hin. apply matched_name_ext, Hst1ne. intros ->.
    apply Hfresh. apply list_elem_of_fmap. by exists (header, al). }
  split_and!.
  - intros h Hh. apply not_elem_of_cons in Hh as [Hne Hh].
    rewrite Hother; [|done]. by apply Hst1ne.
  - intros item [->|Hin]%elem_of_cons.
    + simpl. rewrite Hother; [|done]. unfold records.
      destruct (matched_name _ _ _); [|by subst].
      destruct Hstep as (j & Hj & -> & _). exists j.
      by rewrite lookup_insert_eq.
    + specialize (Hrec item Hin). unfold records in *.
      rewrite <-(Hsame item Hin).
      destruct (matched_name hr (collected_headers st1) item); [done|].
      rewrite Hrec. apply Hst1ne. intros Heq. apply Hfresh.
      apply list_elem_of_fmap. by exists item.
  - rewrite Hlast.
    assert (existsb (fires hr (collected_headers st1)) l
            = existsb (fires hr (collected_headers st)) l) as ->.
    { clear -Hsame. induction l as [|item l IHl]; [done|]. simpl.
      unfold fires at 1 3. rewrite Hsame; [|by left].
      rewrite IHl; [done|]. intros it Hit. apply Hsame. by right. }
    unfold fires at 2.
    destruct (matched_name hr (collected_headers st) (header, aliases));
      simpl.
    + destruct Hstep as (j & _ & _ & ->).
      case (existsb (fires hr (collected_headers st)) l); reflexivity.
    + by subst.
Qed.
End field_loop.

Section scan_row.
Context (self : CSVParser).

Lemma match_required_missing i hr st item st' :
  NoDup (required_headers self).*1 →
  item ∈ required_headers self →
  missing_ok self st →
  match_required i hr st item = Ok st' →
  missing_ok self st'.
Proof.
  intros Hnd Hin Hok. rewrite match_required_eq.
  destruct (matched_name _ _ _) as [x|] eqn:Hm; [|by intros [= <-]].
  destruct (index (Some x) hr) as [j|] eqn:Hj; [simpl|done].
  destruct (collect_required_Ok item.1 j i st)
    as (st2 & -> & Hc & _ & _ & Hfilter).
  intros [= <-]. unfold missing_ok in *. rewrite Hfilter, Hc.
  - rewrite Hok, list_filter_filter. apply list_filter_iff.
    intros y. rewrite lookup_insert_None.
    split; intros [? ?]; split; try done; by apply not_eq_sym.
  - rewrite Hok. by apply NoDup_filter.
Qed.

Lemma match_optional_missing i hr st item st' :
  item.1 ∉ (required_headers self).*1 →
  missing_ok self st →
  match_optional i hr st item = Ok st' →
  missing_ok self st'.
Proof.
  intros Hnotin Hok. rewrite match_optional_eq.
  destruct (matched_name _ _ _) as [x|] eqn:Hm; [|by intros [= <-]].
  destruct (index (Some x) hr) as [j|] eqn:Hj; [simpl|done].
  intros [= <-]. unfold missing_ok in *. simpl. rewrite Hok.
  apply filter_ext_elem_of. intros y Hy. rewrite lookup_insert_None.
  split; [|by intros [? _]]. intros Hnone. split; [done|].
  intros Heq. apply Hnotin. by rewrite Heq.
Qed.

(** What scanning one row does, for a schema with distinct names: every
    field is matched against the row as it stood before the row. *)
Lemma scan_row_spec i row st :
  unique_names self →
  ∃ st', scan_row self i row st = Ok st'
    ∧ (∀ h, h ∉ (fields self).*1 →
         collected_headers st' !! h = collected_headers st !! h)
    ∧ (∀ item, item ∈ fields self →
         records (normalize_row row) (collected_headers st) item
                 (collected_headers st' !! item.1))
    ∧ last_match_row st'
      = (if existsb (fires (normalize_row row) (collected_headers st))
                    (fields self)
         then Some i else last_match_row st)
    ∧ (missing_ok self st → missing_ok self st').
Proof.
  unfold unique_names, fields. rewrite fmap_app.
  intros (Hreq & Hdisj & Hopt)%NoDup_app.
  set (hr := normalize_row row).
  destruct (field_loop_spec i hr _ (required_headers self) st
              (match_required_step i hr) Hreq)
    as (st1 & Hloop1 & Hother1 & Hrec1 & Hlast1).
  destruct (field_loop_spec i hr _ (optional_headers self) st1
              (match_optional_step i hr) Hopt)
    as (st' & Hloop2 & Hother2 & Hrec2 & Hlast2).
  assert (∀ item, item ∈ optional_headers self →
            collected_headers st1 !! item.1 = collected_headers st !! item.1)
    as Hopt1.
  { intros item Hin. apply Hother1. intros Hr. apply (Hdisj _ Hr).
    apply list_elem_of_fmap. by exists item. }
  assert (∀ item, item ∈ optional_headers self →
            matched_name hr (collected_headers st1) item
            = matched_name hr (collected_headers st) item) as Hsame.
  { intros [h al] Hin. apply matched_name_ext. by apply (Hopt1 (h, al)). }
  exists st'. unfold scan_row. fold hr. rewrite Hloop1. simpl.
  split; [done|]. split_and!.
  - intros h [Hh1 Hh2]%not_elem_of_app. by rewrite Hother2, Hother1.
  - intros item [Hin|Hin]%elem_of_app.
    + rewrite Hother2; [by apply Hrec1|]. apply Hdisj.
      apply list_elem_of_fmap. by exists item.
    + specialize (Hrec2 item Hin). unfold records in *.
      rewrite <-(Hsame item Hin).
      destruct (matched_name hr (collected_headers st1) item); [done|].
      by rewrite Hrec2, Hopt1.
  - rewrite Hlast2, Hlast1, existsb_app.
    assert (existsb (fires hr (collected_headers st1)) (optional_headers self)
            = existsb (fires hr (collected_headers st)) (optional_headers self))
      as ->.
    { clear -Hsame. induction (optional_headers self) as [|item l IHl];
        [done|]. simpl.
      unfold fires at 1 3. rewrite Hsame; [|by left].
      rewrite IHl; [done|]. intros it Hit. apply Hsame. by right. }
    case (existsb _ (required_headers self));
      case (existsb _ (optional_headers self)); reflexivity.
  - intros Hok.
    destruct (for_each_ind (match_required i hr) (λ _ s, missing_ok self s)
                (required_headers self) st Hok) as (s1 & Hs1 & Hok1).
    { intros pre x suf s Heq Hs.
      destruct (match_required_step i hr s x) as (s' & Hs' & _).
      exists s'. split; [done|].
      apply (match_required_missing i hr s x); [done| |done..].
      rewrite Heq. apply elem_of_app. right. by left. }
    rewrite Hloop1 in Hs1. injection Hs1 as <-.
    destruct (for_each_ind (match_optional i hr) (λ _ s, missing_ok self s)
                (optional_headers self) st1 Hok1) as (s2 & Hs2 & Hok2).
    { intros pre x suf s Heq Hs.
      destruct (match_optional_step i hr s x) as (s' & Hs' & _).
      exists s'. split; [done|].
      apply (match_optional_missing i hr s x); [|done..].
      intros Hr. apply (Hdisj _ Hr). apply list_elem_of_fmap.
      exists x. split; [done|]. rewrite Heq. apply elem_of_app.
      right. by left. }
    rewrite Hloop2 in Hs2. by injection Hs2 as <-.
Qed.
End scan_row.

(** ** The scan of the window *)

Lemma fires_eq hr collected header aliases :
  fires hr collected (header, aliases)
  = in_row (lower (strip header)) hr && bool_decide (collected !! header = None)
    || any_alias aliases hr.
Proof.
  unfold fires, matched_name.
  destruct (in_row _ hr && _); [done|]. simpl.
  destruct (any_alias aliases hr) eqn:Ha; [|done].
  by destruct (any_alias_next _ _ Ha) as [x ->].
Qed.

Lemma fires_names_field hr collected item :
  fires hr collected item = true → names_field hr item = true.
Proof.
  destruct item as [header aliases]. rewrite fires_eq. unfold names_field.
  simpl. intros [[-> _]%andb_true_iff| ->]%orb_true_iff; [done|].
  apply orb_true_r.
Qed.

Lemma seen_snoc pre row item :
  seen (pre ++ [row]) item = seen pre item || names_field (normalize_row row) item.
Proof. unfold seen. rewrite existsb_app. simpl. by rewrite orb_false_r. Qed.

Lemma existsb_ext_elem_of {A} (f g : A → bool) (l : list A) :
  (∀ x, x ∈ l → f x = g x) → existsb f l = existsb g l.
Proof.
  induction l as [|y l IH]; intros Hext; [done|]. simpl.
  rewrite Hext; [|by left]. rewrite IH; [done|].
  intros x Hx. apply Hext. by right.
Qed.

Lemma snoc_lookup_cases {A} (pre : list A) x k y :
  (pre ++ [x]) !! k = Some y →
  k < length pre ∧ pre !! k = Some y ∧ take k (pre ++ [x]) = take k pre
  ∨ k = length pre ∧ y = x ∧ take k (pre ++ [x]) = pre.
Proof.
  intros Hk. destruct (decide (k < length pre)) as [Hlt|Hge].
  - left. rewrite lookup_app_l in Hk by done. split_and!; [done..|].
    apply take_app_le. lia.
  - right. rewrite lookup_app_r in Hk by lia.
    destruct (k - length pre) as [|n] eqn:Hn; simpl in Hk; [|done].
    injection Hk as <-. assert (k = length pre) as -> by lia.
    split_and!; [done..|]. by rewrite take_app_length.
Qed.

Section scan.
Context (self : CSVParser) (Hnames : unique_names self).

Lemma scan_inv_initial : scan_inv self [] (initial_state self).
Proof.
  split; simpl.
  - intros item _. by rewrite lookup_empty.
  - intros h _. apply lookup_empty.
  - unfold missing_ok. simpl. symmetry. apply filter_all.
    intros h _. apply lookup_empty.
  - by intros k row ?.
Qed.

Lemma fires_row_records pre row st :
  scan_inv self pre st →
  existsb (fires (normalize_row row) (collected_headers st)) (fields self)
  = row_records self pre row.
Proof.
  intros Hinv. apply existsb_ext_elem_of. intros [header aliases] Hin.
  rewrite fires_eq. unfold row_records_field.
  pose proof (inv_collected _ _ _ Hinv (header, aliases) Hin) as Hc.
  simpl in *. by rewrite Hc.
Qed.

Lemma scan_row_inv pre row st :
  scan_inv self pre st →
  ∃ st', scan_row self (length pre) row st = Ok st'
         ∧ scan_inv self (pre ++ [row]) st'.
Proof.
  intros Hinv.
  destruct (scan_row_spec self (length pre) row st Hnames)
    as (st' & Hscan & Hother & Hrec & Hlast & Hmiss).
  exists st'. split; [done|]. split.
  - intros item Hin. rewrite seen_snoc, negb_orb.
    rewrite <-(inv_collected _ _ _ Hinv item Hin).
    specialize (Hrec item Hin). unfold records in Hrec.
    destruct (matched_name _ _ item) as [x|] eqn:Hm.
    + destruct Hrec as (j & _ & ->).
      rewrite (fires_names_field _ (collected_headers st) item);
        [|unfold fires; by rewrite Hm].
      rewrite andb_false_r. by apply bool_decide_eq_false.
    + rewrite Hrec. destruct item as [header aliases]. simpl.
      assert (fires (normalize_row row) (collected_headers st)
                (header, aliases) = false) as Hf.
      { unfold fires. by rewrite Hm. }
      rewrite fires_eq in Hf. apply orb_false_iff in Hf as [Hc Ha].
      unfold names_field. simpl. rewrite Ha, orb_false_r.
      destruct (bool_decide _), (in_row _ _); done.
  - intros h Hh. rewrite Hother; [|done]. by apply (inv_other _ _ _ Hinv).
  - apply Hmiss, (inv_missing _ _ _ Hinv).
  - rewrite Hlast, (fires_row_records pre row st Hinv).
    pose proof (inv_last _ _ _ Hinv) as Hl.
    destruct (row_records self pre row) eqn:Hrr.
    + split.
      * exists row. rewrite take_app_length. split; [|done].
        by apply list_lookup_middle.
      * intros k row' Hk Hlook. apply lookup_lt_Some in Hlook.
        rewrite length_app in Hlook. simpl in Hlook. lia.
    + destruct (last_match_row st) as [i0|];
      unfold last_recording, last_row_with in *.
      * destruct Hl as [(row0 & Hrow0 & Hrec0) Hafter].
        pose proof (lookup_lt_Some _ _ _ Hrow0) as Hlt. split.
        -- exists row0. rewrite lookup_app_l by done.
           rewrite take_app_le by lia. done.
        -- intros k row' Hk
             [(Hklt & Hlook & ->)|(-> & -> & ->)]%snoc_lookup_cases;
             [|done]. by apply Hafter.
      * intros k row'
          [(Hklt & Hlook & ->)|(-> & -> & ->)]%snoc_lookup_cases;
          [|done]. by apply Hl.
Qed.

(** The scan does not raise, and ends in a state described by
    [scan_inv]. *)
Lemma iterrows_inv rows :
  ∃ st, iterrows self 0 rows (initial_state self) = Ok st ∧ scan_inv self rows st.
Proof.
  apply (iterrows_ind self (scan_inv self)); [apply scan_inv_initial|].
  intros pre row suf st _ Hinv. by apply scan_row_inv.
Qed.
End scan.

(** ** The scan of an arbitrary schema *)

Section scan_any.
Context (self : CSVParser).

(** Invariant rule for one row: a property kept by both loop bodies is
    kept by the row. *)
Lemma scan_row_ind (P : scan_state → Prop) i row st :
  P st →
  (∀ s item, item ∈ required_headers self → P s →
     ∃ s', match_required i (normalize_row row) s item = Ok s' ∧ P s') →
  (∀ s item, item ∈ optional_headers self → P s →
     ∃ s', match_optional i (normalize_row row) s item = Ok s' ∧ P s') →
  ∃ st', scan_row self i row st = Ok st' ∧ P st'.
Proof.
  intros HP Hreq Hopt. unfold scan_row.
  destruct (for_each_ind (match_required i (normalize_row row)) (λ _, P)
              (required_headers self) st HP) as (st1 & -> & HP1).
  { intros pre x suf s Heq Hs. apply Hreq; [|done].
    rewrite Heq. apply elem_of_app. right. by left. }
  simpl.
  apply (for_each_ind (match_optional i (normalize_row row)) (λ _, P)); [done|].
  intros pre x suf s Heq Hs. apply Hopt; [|done].
  rewrite Heq. apply elem_of_app. right. by left.
Qed.

Lemma find_header_row_result df st :
  iterrows self 0 (df_head (max_rows self) df) (initial_state self) = Ok st →
  find_header_row self df = Ok (result_of self st).
Proof.
  intros Hst. unfold find_header_row, result_of. rewrite Hst. simpl.
  by case_bool_decide.
Qed.

Lemma match_optional_missing_eq i hr st item st' :
  match_optional i hr st item = Ok st' →
  missing_required_headers st' = missing_required_headers st.
Proof.
  rewrite match_optional_eq.
  destruct (matched_name _ _ _); [|by intros [= <-]].
  destruct (index _ hr); [simpl|done]. by intros [= <-].
Qed.

Lemma no_required_named_elem_of rows row item :
  no_required_named self rows = true →
  row ∈ rows → item ∈ required_headers self →
  names_field (normalize_row row) item = false.
Proof.
  unfold no_required_named. rewrite forallb_forall. intros Hall Hrow Hitem.
  apply list_elem_of_In in Hrow. specialize (Hall row Hrow).
  rewrite forallb_forall in Hall. apply list_elem_of_In in Hitem.
  by apply negb_true_iff, Hall.
Qed.

(** When no row names a required field, the required loop never collects:
    the list of missing headers stays complete, and what is collected
    comes from the optional loop. *)
Lemma iterrows_no_required rows :
  no_required_named self rows = true →
  ∃ st, iterrows self 0 rows (initial_state self) = Ok st
    ∧ missing_required_headers st = (required_headers self).*1
    ∧ ∀ h, is_Some (collected_headers st !! h) →
           h ∈ (optional_headers self).*1.
Proof.
  intros Hno.
  apply (iterrows_ind self (λ _ st,
    missing_required_headers st = (required_headers self).*1
    ∧ ∀ h, is_Some (collected_headers st !! h) →
           h ∈ (optional_headers self).*1)).
  { split; [done|]. simpl. intros h. rewrite lookup_empty.
    by intros ?%is_Some_None. }
  intros pre row suf st Heq HP.
  apply scan_row_ind; [done|..].
  - intros s item Hitem Hs. exists s. split; [|done].
    rewrite match_required_eq.
    destruct (matched_name _ _ item) eqn:Hm; [|done].
    assert (names_field (normalize_row row) item = true) as Hn.
    { apply (fires_names_field _ (collected_headers s)).
      unfold fires. by rewrite Hm. }
    rewrite (no_required_named_elem_of rows row item) in Hn; [done..| |done].
    rewrite Heq. apply elem_of_app. right. by left.
  - intros s item Hitem [Hmiss Hdom].
    destruct (match_optional_step (length pre) (normalize_row row) s item)
      as (s' & Hs' & Hstep).
    exists s'. split; [done|]. split.
    + by rewrite (match_optional_missing_eq _ _ _ _ _ Hs').
    + intros h Hh. destruct (matched_name _ _ _); [|subst; by apply Hdom].
      destruct Hstep as (j & _ & Hc & _). rewrite Hc in Hh.
      destruct (decide (item.1 = h)) as [<-|Hne].
      * apply list_elem_of_fmap. by exists item.
      * rewrite lookup_insert_ne in Hh by done. by apply Hdom.
Qed.
End scan_any.

(** ** No required header in the window *)

Section no_required.
Context (self : CSVParser) (df : dataframe).

Lemma find_header_row_no_required :
  no_required_named self (window self df) = true →
  ∃ st, find_header_row self df = Ok (result_of self st)
    ∧ missing_required_headers st = (required_headers self).*1
    ∧ ∀ h, is_Some (collected_headers st !! h) →
           h ∈ (optional_headers self).*1.
Proof.
  intros Hno.
  destruct (iterrows_no_required self _ Hno) as (st & Hst & Hmiss & Hdom).
  exists st. split; [|done]. by apply find_header_row_result.
Qed.

Lemma parse_csv_missing r :
  find_header_row self df = Ok r →
  missing_headers r ≠ [] →
  parse_csv self df = error (not_found (missing_headers r)).
Proof.
  intros Hr Hne. unfold parse_csv. rewrite Hr.
  rewrite bool_decide_eq_true_2; [done|].
  destruct (missing_headers r); [done|simpl; lia].
Qed.

Lemma parse_csv_complete r :
  find_header_row self df = Ok r →
  missing_headers r = [] →
  parse_csv self df
  = parsed (header_start_row r) (header_indices r) (optional_indices r).
Proof.
  intros Hr Hnil. unfold parse_csv. rewrite Hr, Hnil.
  rewrite bool_decide_eq_false_2; [done|]. simpl. lia.
Qed.

Lemma missing_headers_result_of st :
  missing_headers (result_of self st) = missing_required_headers st.
Proof. unfold result_of. by case_bool_decide. Qed.

End no_required.

Lemma no_required_named_nil self rows :
  required_headers self = [] → no_required_named self rows = true.
Proof.
  intros Hnil. unfold no_required_named. rewrite Hnil.
  by induction rows.
Qed.

(** C3, as amended. With an empty dictionary of required headers
    [find_header_row] returns through its first [return] whatever the frame
    holds: [parse_csv] reports no error, the start row is [None] and no
    column is reported, whether or not an optional header is in the
    window. *)
Theorem empty_required_succeeds (self : CSVParser) (df : dataframe) :
  required_headers self = [] →
  find_header_row self df = Ok (no_headers [])
  ∧ parse_csv self df = parsed None [] [].
Proof.
  intros Hnil.
  destruct (find_header_row_no_required self df) as (st & Hr & Hmiss & _).
  { by apply no_required_named_nil. }
  assert (result_of self st = no_headers []) as Hres.
  { unfold result_of. rewrite Hnil. simpl.
    rewrite bool_decide_eq_true_2 by apply (right_absorb_L ∅ (∩)).
    unfold no_headers. by rewrite Hmiss, Hnil. }
  rewrite Hres in Hr. split; [done|].
  by rewrite (parse_csv_complete self df _ Hr).
Qed.

Lemma empty_required_succeeds_witness :
  required_headers optional_only = []
  ∧ find_header_row optional_only notes_frame = Ok (no_headers [])
  ∧ parse_csv optional_only notes_frame = parsed None [] [].
Proof.
  split; [reflexivity|].
  apply (empty_required_succeeds optional_only notes_frame). reflexivity.
Defined.

(** C3 as the specification states it fails: the optional header "Notes"
    is in the first row, and yet the start row is unset and no column is
    reported. *)
Lemma empty_required_counterexample :
  ¬ empty_required_claim optional_only notes_frame.
Proof.
  intros Hclaim.
  destruct (Hclaim eq_refl) as (start & req & opt & Hparse & Hstart & _).
  vm_compute in Hparse. injection Hparse as <- <- <-.
  destruct Hstart as [Hnone _].
  specialize (Hnone eq_refl ("Notes", ["description"])).
  assert (("Notes", ["description"]) ∈ optional_headers optional_only) as Hin
    by (by left).
  specialize (Hnone Hin). vm_compute in Hnone. discriminate.
Qed.

(** C6. When no row of the window holds the name or an alias of a
    required header, and there is a required header, [parse_csv] returns the
    error that lists all required headers, whatever optional headers the
    window holds; and [find_header_row] returns through its first [return],
    with the start row unset and no required or optional column, when
    no header is declared as both required and optional. *)
Theorem zero_overlap (self : CSVParser) (df : dataframe) :
  required_headers self ≠ [] →
  no_required_named self (window self df) = true →
  parse_csv self df = error (not_found (required_headers self).*1)
  ∧ ((∀ h, h ∈ (required_headers self).*1 →
           h ∉ (optional_headers self).*1) →
     find_header_row self df = Ok (no_headers (required_headers self).*1)).
Proof.
  intros Hne Hno.
  destruct (find_header_row_no_required self df Hno)
    as (st & Hr & Hmiss & Hdom).
  split.
  - rewrite (parse_csv_missing self df _ Hr);
      rewrite missing_headers_result_of, Hmiss; [done|].
    by destruct (required_headers self).
  - intros Hdisj. rewrite Hr. f_equal. unfold result_of.
    rewrite bool_decide_eq_true_2; [unfold no_headers; by rewrite Hmiss|].
    apply set_eq. intros h. rewrite elem_of_intersection, elem_of_dom.
    rewrite elem_of_list_to_set. split; [|by intros ?%elem_of_empty].
    intros [Hc Hreq]. destruct (Hdisj h Hreq). by apply Hdom.
Qed.

Lemma zero_overlap_witness :
  required_headers address_price ≠ []
  ∧ no_required_named address_price (window address_price notes_frame) = true
  ∧ parse_csv address_price notes_frame = error (not_found ["Address"; "Price"])
  ∧ ((∀ h, h ∈ (required_headers address_price).*1 →
           h ∉ (optional_headers address_price).*1) →
     find_header_row address_price notes_frame
     = Ok (no_headers ["Address"; "Price"])).
Proof.
  split; [discriminate|]. split; [reflexivity|].
  apply (zero_overlap address_price notes_frame); [discriminate|reflexivity].
Defined.

(** ** The result for a schema with distinct names *)

Lemma filter_fmap_ext {A B} (f : A → B) (P : B → Prop) (Q : A → Prop)
    `{!∀ y, Decision (P y), !∀ x, Decision (Q x)} (l : list A) :
  (∀ x, x ∈ l → P (f x) ↔ Q x) →
  filter P (f <$> l) = f <$> filter Q l.
Proof.
  induction l as [|x l IH]; intros Hext; [done|]. rewrite fmap_cons.
  assert (filter P (f <$> l) = f <$> filter Q l) as Hl.
  { apply IH. intros y Hy. apply Hext. by right. }
  destruct (decide (Q x)) as [Hx|Hx].
  - rewrite !filter_cons_True; [by rewrite fmap_cons, Hl|done|].
    apply Hext; [by left|done].
  - rewrite !filter_cons_False; [done|done|].
    intros HP. apply Hx, Hext; [by left|done].
Qed.

Lemma last_row_with_ext f g rows o :
  (∀ k row, rows !! k = Some row → f (take k rows) row = g (take k rows) row) →
  last_row_with f rows o → last_row_with g rows o.
Proof.
  intros Hext. destruct o as [i|]; simpl.
  - intros [(row & Hrow & Hf) Hafter]. split.
    + exists row. split; [done|]. by rewrite <-Hext.
    + intros k row' Hk Hlook. rewrite <-Hext by done. by apply Hafter.
  - intros Hnone k row Hlook. rewrite <-Hext by done. by apply Hnone.
Qed.

(** A field that some row names is named for the first time by some
    row. *)
Lemma seen_first_match rows item :
  seen rows item = true →
  ∃ k row, rows !! k = Some row ∧ first_match (take k rows) row item = true.
Proof.
  induction rows as [|row rows IH]; [done|]. simpl.
  destruct (names_field (normalize_row row) item) eqn:Hn; simpl.
  - intros _. exists 0, row. split; [done|]. unfold first_match.
    by rewrite Hn.
  - intros (k & row' & Hlook & Hfirst)%IH. exists (S k), row'.
    split; [done|]. unfold first_match in *. simpl. by rewrite Hn.
Qed.

Lemma first_match_records pre row item :
  first_match pre row item = true → row_records_field pre row item = true.
Proof.
  unfold first_match, row_records_field, names_field.
  destruct (in_row _ _), (any_alias _ _), (seen pre item); done.
Qed.

Lemma no_alias_rematch_lookup self rows k row item :
  no_alias_rematch self rows = true →
  rows !! k = Some row → item ∈ fields self →
  any_alias item.2 (normalize_row row) && seen (take k rows) item = false.
Proof.
  unfold no_alias_rematch. rewrite forallb_forall. intros Hall Hlook Hitem.
  specialize (Hall k). rewrite Hlook in Hall. rewrite forallb_forall in Hall.
  apply negb_true_iff, Hall.
  - apply in_seq. apply lookup_lt_Some in Hlook. lia.
  - by apply list_elem_of_In.
Qed.

Lemma no_alias_rematch_contributes self rows k row :
  no_alias_rematch self rows = true →
  rows !! k = Some row →
  row_records self (take k rows) row = row_contributes self (take k rows) row.
Proof.
  intros Hno Hlook. apply existsb_ext_elem_of. intros item Hitem.
  pose proof (no_alias_rematch_lookup self rows k row item Hno Hlook Hitem).
  unfold row_records_field, first_match, names_field.
  destruct (in_row _ _), (any_alias _ _), (seen _ item); done.
Qed.

Section result.
Context (self : CSVParser) (Hnames : unique_names self).

Lemma scan_inv_collected rows st item :
  scan_inv self rows st → item ∈ fields self →
  collected_headers st !! item.1 = None ↔ seen rows item = false.
Proof.
  intros Hinv Hitem. rewrite <-negb_true_iff.
  rewrite <-(inv_collected _ _ _ Hinv item Hitem).
  by rewrite bool_decide_eq_true.
Qed.

Lemma required_fields item :
  item ∈ required_headers self → item ∈ fields self.
Proof. intros Hin. apply elem_of_app. by left. Qed.

Lemma scan_inv_unmatched rows st :
  scan_inv self rows st → missing_required_headers st = unmatched self rows.
Proof.
  intros Hinv. rewrite (inv_missing _ _ _ Hinv). unfold unmatched.
  apply filter_fmap_ext. intros item Hitem.
  apply (scan_inv_collected rows st item Hinv). by apply required_fields.
Qed.

(** The test of the first [return]: nothing required is collected exactly
    when no row names a required header. *)
Lemma scan_inv_overlap rows st :
  scan_inv self rows st →
  bool_decide (dom (collected_headers st)
                 ∩ list_to_set (required_headers self).*1 = (∅ : gset string))
  = negb (existsb (seen rows) (required_headers self)).
Proof.
  intros Hinv. destruct (existsb _ _) eqn:Hex; simpl.
  - apply bool_decide_eq_false. intros Hempty.
    apply existsb_exists in Hex as (item & Hitem%list_elem_of_In & Hseen).
    assert (item.1 ∈ dom (collected_headers st)
                     ∩ list_to_set (required_headers self).*1) as Hin.
    { apply elem_of_intersection. split.
      - apply elem_of_dom.
        destruct (collected_headers st !! item.1) eqn:Hc; [done|].
        apply (scan_inv_collected rows st item Hinv) in Hc;
          [congruence|by apply required_fields].
      - apply elem_of_list_to_set, list_elem_of_fmap. by exists item. }
    rewrite Hempty in Hin. by apply elem_of_empty in Hin.
  - apply bool_decide_eq_true. apply set_eq. intros h.
    rewrite elem_of_intersection, elem_of_dom, elem_of_list_to_set.
    split; [|by intros ?%elem_of_empty].
    intros [[j Hj] (item & -> & Hitem)%list_elem_of_fmap].
    assert (seen rows item = false) as Hseen.
    { apply not_true_iff_false. intros Hs.
      apply not_true_iff_false in Hex. apply Hex, existsb_exists.
      exists item. split; [by apply list_elem_of_In|done]. }
    apply (scan_inv_collected rows st item Hinv) in Hseen;
      [congruence|by apply required_fields].
Qed.

(** [find_header_row] does not raise, and its result is read from a state
    described by [scan_inv]. *)
Lemma find_header_row_inv df :
  ∃ st, find_header_row self df = Ok (result_of self st)
        ∧ scan_inv self (window self df) st.
Proof.
  destruct (iterrows_inv self Hnames (window self df)) as (st & Hst & Hinv).
  exists st. split; [|done]. by apply find_header_row_result.
Qed.

(** The start row, with the rows that record a column spelled out. *)
Lemma header_start_row_recording df :
  ∃ r o, find_header_row self df = Ok r
    ∧ last_recording self (window self df) o
    ∧ header_start_row r
      = if existsb (seen (window self df)) (required_headers self)
        then S <$> o else None.
Proof.
  destruct (find_header_row_inv df) as (st & Hr & Hinv).
  exists (result_of self st), (last_match_row st).
  split; [done|]. split; [apply (inv_last _ _ _ Hinv)|].
  unfold result_of. rewrite (scan_inv_overlap _ _ Hinv).
  by destruct (existsb _ _).
Qed.

End result.

Ltac distinct_names :=
  unfold unique_names; apply (bool_decide_unpack _); vm_compute; exact I.

(** C5. For a schema with distinct names, [parse_csv] returns its
    "Required headers not found" error exactly when some required header is
    named by no row of the window; the error lists exactly those headers, in
    declaration order, and otherwise the resolved mapping is returned. *)
Theorem missing_required_reported (self : CSVParser) (df : dataframe) :
  unique_names self →
  ∃ r, find_header_row self df = Ok r
    ∧ missing_headers r = unmatched self (window self df)
    ∧ parse_csv self df
      = if decide (unmatched self (window self df) = [])
        then parsed (header_start_row r) (header_indices r) (optional_indices r)
        else error (not_found (unmatched self (window self df))).
Proof.
  intros Hnames.
  destruct (find_header_row_inv self Hnames df) as (st & Hr & Hinv).
  exists (result_of self st).
  assert (missing_headers (result_of self st) = unmatched self (window self df))
    as Hmiss.
  { rewrite missing_headers_result_of. by apply scan_inv_unmatched. }
  split; [done|]. split; [done|]. rewrite <-Hmiss. case_decide as Hnil.
  - by apply parse_csv_complete.
  - by apply parse_csv_missing.
Qed.

Lemma missing_required_reported_witness :
  unique_names address_price
  ∧ ∃ r, find_header_row address_price street_cost_frame = Ok r
    ∧ missing_headers r
      = unmatched address_price (window address_price street_cost_frame)
    ∧ parse_csv address_price street_cost_frame
      = if decide (unmatched address_price
                     (window address_price street_cost_frame) = [])
        then parsed (header_start_row r) (header_indices r) (optional_indices r)
        else error (not_found (unmatched address_price
                                 (window address_price street_cost_frame))).
Proof.
  split; [distinct_names|].
  apply (missing_required_reported address_price street_cost_frame).
  distinct_names.
Defined.

(** C4, as amended. For a schema with distinct names and a window in
    which no row holds an alias of a field that an earlier row names: when
    some required header is named in the window, the start row is one past
    the last row that contributes a match, required or optional; when no
    required header is named in the window, the start row is unset, whatever
    optional headers matched. *)
Theorem data_start_row (self : CSVParser) (df : dataframe) :
  unique_names self →
  no_alias_rematch self (window self df) = true →
  ∃ r, find_header_row self df = Ok r
    ∧ if existsb (seen (window self df)) (required_headers self)
      then ∃ i, header_start_row r = Some (S i)
                ∧ last_contributing self (window self df) (Some i)
      else header_start_row r = None.
Proof.
  intros Hnames Hno.
  destruct (header_start_row_recording self Hnames df)
    as (r & o & Hr & Hlast & Hstart).
  exists r. split; [done|].
  destruct (existsb _ _) eqn:Hex; [|done].
  assert (last_contributing self (window self df) o) as Hcontrib.
  { apply (last_row_with_ext (row_records self)); [|done].
    intros k row Hlook. by apply no_alias_rematch_contributes. }
  destruct o as [i|]; [by exists i|]. exfalso.
  apply existsb_exists in Hex as (item & Hitem%list_elem_of_In & Hseen).
  apply seen_first_match in Hseen as (k & row & Hlook & Hfirst).
  specialize (Hcontrib k row Hlook). apply not_true_iff_false in Hcontrib.
  apply Hcontrib, existsb_exists. exists item.
  split; [|done]. apply list_elem_of_In. by apply required_fields.
Qed.

Lemma data_start_row_witness :
  unique_names address_price
  ∧ no_alias_rematch address_price
      (window address_price address_price_frame) = true
  ∧ ∃ r, find_header_row address_price address_price_frame = Ok r
    ∧ if existsb (seen (window address_price address_price_frame))
                 (required_headers address_price)
      then ∃ i, header_start_row r = Some (S i)
                ∧ last_contributing address_price
                    (window address_price address_price_frame) (Some i)
      else header_start_row r = None.
Proof.
  split; [distinct_names|]. split; [reflexivity|].
  apply (data_start_row address_price address_price_frame);
    [distinct_names|reflexivity].
Defined.

(** C4 as the specification states it fails: the first row contributes
    the optional header "Notes", no row names a required header, and the
    start row is unset. *)
Lemma data_start_row_counterexample :
  ¬ data_start_row_claim address_price notes_frame.
Proof.
  intros (r & o & Hr & Hlast & Hstart).
  vm_compute in Hr. injection Hr as <-. simpl in Hstart.
  destruct o as [i|]; [done|].
  specialize (Hlast 0 [Some "Notes"] eq_refl).
  vm_compute in Hlast. discriminate.
Qed.

(** ** Matching one field against one row *)

Section row_matching.
Context (self : CSVParser) (Hnames : unique_names self).
Context (i : nat) (row : list cell) (st : scan_state).

(** After the row, the entry of a field matched by the name [x] is the
    first column that holds [x]. *)
Lemma scan_row_matched item x :
  item ∈ fields self →
  matched_name (normalize_row row) (collected_headers st) item = Some x →
  ∃ st' j, scan_row self i row st = Ok st'
    ∧ index (Some x) (normalize_row row) = Ok j
    ∧ collected_headers st' !! item.1 = Some j.
Proof.
  intros Hitem Hm.
  destruct (scan_row_spec self i row st Hnames) as (st' & Hscan & _ & Hrec & _).
  specialize (Hrec item Hitem). unfold records in Hrec. rewrite Hm in Hrec.
  destruct Hrec as (j & Hj & Hc). by exists st', j.
Qed.

End row_matching.

(** C8. For a schema with distinct names, when a row holds the
    normalized header of a field that is not collected yet, the scan of the
    row records the column of the header, whether or not the row holds
    aliases of the field as well: the recorded column holds the normalized
    header, and it is the lowest column that does. *)
Theorem canonical_over_alias (self : CSVParser) (i : nat) (row : list cell)
    (st : scan_state) (header : string) (aliases : list string) :
  unique_names self →
  (header, aliases) ∈ fields self →
  collected_headers st !! header = None →
  in_row (lower (strip header)) (normalize_row row) = true →
  ∃ st' j, scan_row self i row st = Ok st'
    ∧ index (Some (lower (strip header))) (normalize_row row) = Ok j
    ∧ collected_headers st' !! header = Some j
    ∧ normalize_row row !! j = Some (Some (lower (strip header)))
    ∧ ∀ k : nat, normalize_row row !! k = Some (Some (lower (strip header))) →
                 (j ≤ k)%nat.
Proof.
  intros Hnames Hitem Hnone Hin.
  destruct (scan_row_matched self Hnames i row st (header, aliases)
              (lower (strip header)) Hitem) as (st' & j & Hscan & Hj & Hc).
  { unfold matched_name. rewrite Hin. by rewrite bool_decide_eq_true_2. }
  exists st', j. split_and!; [done..| |].
  - by apply index_Ok_inv in Hj as [Hlook _].
  - apply index_Ok_inv in Hj as [_ Hmin]. intros k Hk.
    destruct (decide (j ≤ k)%nat) as [|Hlt]; [done|].
    destruct (Hmin k); [lia|done].
Qed.

Lemma canonical_over_alias_witness :
  unique_names price_aliases
  ∧ ("Price", ["listing price"; "cost"; "sale price"]) ∈ fields price_aliases
  ∧ collected_headers (initial_state price_aliases) !! "Price" = None
  ∧ in_row (lower (strip "Price")) (normalize_row price_cost_row) = true
  ∧ ∃ st' j, scan_row price_aliases 0 price_cost_row
               (initial_state price_aliases) = Ok st'
    ∧ index (Some (lower (strip "Price"))) (normalize_row price_cost_row) = Ok j
    ∧ collected_headers st' !! "Price" = Some j
    ∧ normalize_row price_cost_row !! j = Some (Some (lower (strip "Price")))
    ∧ ∀ k : nat, normalize_row price_cost_row !! k
                 = Some (Some (lower (strip "Price"))) → (j ≤ k)%nat.
Proof.
  assert (("Price", ["listing price"; "cost"; "sale price"])
            ∈ fields price_aliases) as Hin by (right; left).
  split; [distinct_names|]. split; [exact Hin|].
  split; [reflexivity|]. split; [reflexivity|].
  apply (canonical_over_alias price_aliases 0 price_cost_row
           (initial_state price_aliases) "Price"
           ["listing price"; "cost"; "sale price"]);
    [distinct_names|exact Hin|reflexivity|reflexivity].
Defined.

(** C9. For a schema with distinct names, when a row does not hold the
    normalized header of a field that is not collected yet, the scan of the
    row records the column of the first alias, in declaration order, that
    the row holds: the recorded column holds that alias, lowercased, and it
    is the lowest column that does. *)
Theorem first_alias_wins (self : CSVParser) (i : nat) (row : list cell)
    (st : scan_state) (header : string) (aliases l1 l2 : list string)
    (alias : string) :
  unique_names self →
  (header, aliases) ∈ fields self →
  collected_headers st !! header = None →
  in_row (lower (strip header)) (normalize_row row) = false →
  aliases = l1 ++ alias :: l2 →
  Forall (λ a, in_row (lower a) (normalize_row row) = false) l1 →
  in_row (lower alias) (normalize_row row) = true →
  ∃ st' j, scan_row self i row st = Ok st'
    ∧ index (Some (lower alias)) (normalize_row row) = Ok j
    ∧ collected_headers st' !! header = Some j
    ∧ normalize_row row !! j = Some (Some (lower alias))
    ∧ ∀ k : nat, normalize_row row !! k = Some (Some (lower alias)) →
                 (j ≤ k)%nat.
Proof.
  intros Hnames Hitem Hnone Hcanon Hsplit Hl1 Halias.
  destruct (scan_row_matched self Hnames i row st (header, aliases)
              (lower alias) Hitem) as (st' & j & Hscan & Hj & Hc).
  { unfold matched_name. rewrite Hcanon. simpl.
    rewrite (alias_matches_first aliases _ l1 alias l2 Hsplit).
    - assert (any_alias aliases (normalize_row row) = true) as ->; [|done].
      apply any_alias_true. exists alias. split; [|by apply in_row_true].
      rewrite Hsplit. apply elem_of_app. right. by left.
    - intros a Ha. apply in_row_false. rewrite Forall_forall in Hl1.
      by apply Hl1.
    - by apply in_row_true. }
  exists st', j. split_and!; [done..| |].
  - by apply index_Ok_inv in Hj as [Hlook _].
  - apply index_Ok_inv in Hj as [_ Hmin]. intros k Hk.
    destruct (decide (j ≤ k)%nat) as [|Hlt]; [done|].
    destruct (Hmin k); [lia|done].
Qed.

Lemma first_alias_wins_witness :
  unique_names price_aliases
  ∧ ("Price", ["listing price"; "cost"; "sale price"]) ∈ fields price_aliases
  ∧ collected_headers (initial_state price_aliases) !! "Price" = None
  ∧ in_row (lower (strip "Price")) (normalize_row sale_cost_row) = false
  ∧ ["listing price"; "cost"; "sale price"]
    = ["listing price"] ++ "cost" :: ["sale price"]
  ∧ Forall (λ a, in_row (lower a) (normalize_row sale_cost_row) = false)
           ["listing price"]
  ∧ in_row (lower "cost") (normalize_row sale_cost_row) = true
  ∧ ∃ st' j, scan_row price_aliases 0 sale_cost_row
               (initial_state price_aliases) = Ok st'
    ∧ index (Some (lower "cost")) (normalize_row sale_cost_row) = Ok j
    ∧ collected_headers st' !! "Price" = Some j
    ∧ normalize_row sale_cost_row !! j = Some (Some (lower "cost"))
    ∧ ∀ k : nat, normalize_row sale_cost_row !! k = Some (Some (lower "cost")) →
                 (j ≤ k)%nat.
Proof.
  assert (("Price", ["listing price"; "cost"; "sale price"])
            ∈ fields price_aliases) as Hin by (right; left).
  assert (Forall (λ a, in_row (lower a) (normalize_row sale_cost_row) = false)
                 ["listing price"]) as Hl1
    by (apply (bool_decide_unpack _); vm_compute; exact I).
  split; [distinct_names|]. split; [exact Hin|].
  split; [reflexivity|]. split; [reflexivity|]. split; [reflexivity|].
  split; [exact Hl1|]. split; [reflexivity|].
  apply (first_alias_wins price_aliases 0 sale_cost_row
           (initial_state price_aliases) "Price"
           ["listing price"; "cost"; "sale price"]
           ["listing price"] ["sale price"] "cost");
    [distinct_names|exact Hin|reflexivity|reflexivity|reflexivity
    |exact Hl1|reflexivity].
Defined.

(** C10. For a schema with distinct names, when a field, required or
    optional, is matched in a row by the name [x] (its normalized header, or
    the first alias in the row), the column recorded for it is the lowest
    column of the row whose normalized cell is [x]. *)
Theorem lowest_column (self : CSVParser) (i : nat) (row : list cell)
    (st : scan_state) (item : string * list string) (x : string) :
  unique_names self →
  item ∈ required_headers self ++ optional_headers self →
  matched_name (normalize_row row) (collected_headers st) item = Some x →
  ∃ st' (j : nat), scan_row self i row st = Ok st'
    ∧ collected_headers st' !! item.1 = Some j
    ∧ normalize_row row !! j = Some (Some x)
    ∧ ∀ k : nat, normalize_row row !! k = Some (Some x) → (j ≤ k)%nat.
Proof.
  intros Hnames Hitem Hm.
  destruct (scan_row_matched self Hnames i row st item x Hitem Hm)
    as (st' & j & Hscan & Hj & Hc).
  apply index_Ok_inv in Hj as [Hlook Hmin].
  exists st', j. split_and!; [done..|].
  intros k Hk. destruct (decide (j ≤ k)%nat) as [|Hlt]; [done|].
  destruct (Hmin k); [lia|done].
Qed.

Lemma lowest_column_witness :
  unique_names price_aliases
  ∧ ("Price", ["listing price"; "cost"; "sale price"])
    ∈ required_headers price_aliases ++ optional_headers price_aliases
  ∧ matched_name (normalize_row cost_cost_row)
      (collected_headers (initial_state price_aliases))
      ("Price", ["listing price"; "cost"; "sale price"]) = Some "cost"
  ∧ ∃ st' (j : nat), scan_row price_aliases 0 cost_cost_row
               (initial_state price_aliases) = Ok st'
    ∧ collected_headers st' !! "Price" = Some j
    ∧ normalize_row cost_cost_row !! j = Some (Some "cost")
    ∧ ∀ k : nat, normalize_row cost_cost_row !! k = Some (Some "cost") → (j ≤ k)%nat.
Proof.
  assert (("Price", ["listing price"; "cost"; "sale price"])
            ∈ required_headers price_aliases ++ optional_headers price_aliases)
    as Hin by (right; left).
  split; [distinct_names|]. split; [exact Hin|]. split; [reflexivity|].
  apply (lowest_column price_aliases 0 cost_cost_row
           (initial_state price_aliases)
           ("Price", ["listing price"; "cost"; "sale price"]) "cost");
    [distinct_names|exact Hin|reflexivity].
Defined.

(** ** Missing cells *)

Lemma normalize_row_lookup row j x :
  normalize_row row !! j = Some (Some x) →
  ∃ s, row !! j = Some (Some s) ∧ replace_newline (lower (strip s)) = x.
Proof.
  unfold normalize_row. rewrite list_lookup_fmap.
  destruct (row !! j) as [[s|]|]; simpl; [|done..].
  intros [= <-]. by exists s.
Qed.

(** A missing cell is not equal to any name. *)
Lemma normalize_row_missing row j x :
  row !! j = Some None → normalize_row row !! j ≠ Some (Some x).
Proof.
  intros Hnone (s & Hs & _)%normalize_row_lookup. congruence.
Qed.

Lemma present_match_snoc self pre row header j :
  present_match self pre header j → present_match self (pre ++ [row]) header j.
Proof.
  intros (row' & s & aliases & Hin & Hrest). exists row', s, aliases.
  split; [|done]. apply elem_of_app. by left.
Qed.

Section missing_cells.
Context (self : CSVParser).

(** A loop body keeps [collected_present] for the row it matches
    against. *)
Lemma matching_step_present i pre row body st item :
  matching_step i (normalize_row row) body →
  item ∈ fields self →
  collected_present self (pre ++ [row]) st →
  ∃ st', body st item = Ok st' ∧ collected_present self (pre ++ [row]) st'.
Proof.
  intros Hbody Hitem Hst. destruct (Hbody st item) as (st' & Hst' & Hstep).
  exists st'. split; [done|].
  destruct (matched_name _ _ item) as [x|] eqn:Hm; [|by subst].
  destruct Hstep as (j & Hj & Hc & _). intros header j'. rewrite Hc.
  destruct (decide (item.1 = header)) as [<-|Hne].
  - rewrite lookup_insert_eq. intros [= <-].
    apply index_Ok_inv in Hj as [Hlook _].
    apply normalize_row_lookup in Hlook as (s & Hs & Hnorm).
    destruct item as [header aliases].
    apply matched_name_Some in Hm as [_ Hname].
    exists row, s, aliases. split_and!; [|done..|].
    + apply elem_of_app. right. by left.
    + rewrite Hnorm. destruct Hname as [[-> _]|(alias & Ha & ->)]; [by left|].
      right. by exists alias.
  - rewrite lookup_insert_ne by done. apply Hst.
Qed.

Lemma iterrows_present rows :
  ∃ st, iterrows self 0 rows (initial_state self) = Ok st
        ∧ collected_present self rows st.
Proof.
  apply (iterrows_ind self (collected_present self)).
  { intros header j. simpl. by rewrite lookup_empty. }
  intros pre row suf st _ Hst. apply scan_row_ind.
  - intros header j Hj. by apply present_match_snoc, Hst.
  - intros s item Hitem Hs.
    apply (matching_step_present (length pre)); [|by apply required_fields|done].
    apply match_required_step.
  - intros s item Hitem Hs.
    apply (matching_step_present (length pre)); [| |done].
    + apply match_optional_step.
    + apply elem_of_app. by right.
Qed.

Lemma indices_of_elem_of d collected header j :
  (header, j) ∈ indices_of d collected → collected !! header = Some j.
Proof.
  unfold indices_of. rewrite list_elem_of_omap.
  intros (key & _ & Hkey). destruct (collected !! key) eqn:Hc; [|done].
  simpl in Hkey. by injection Hkey as <- <-.
Qed.

End missing_cells.

(** C7, as amended. A missing cell is equal to no header and to no alias,
    and every column [find_header_row] reports is the column of a present
    cell of the window whose normalized text is the normalized header, or a
    lowercased alias, of the reported field; a present cell whose text
    normalizes to the empty text is kept as the empty text. *)
Theorem missing_cells_never_match (self : CSVParser) (df : dataframe) :
  (∀ (row : list cell) (j : nat) (x : string),
     row !! j = Some None → normalize_row row !! j ≠ Some (Some x))
  ∧ (∀ s, blank (Some s) → normalize_cell (Some s) = Some "")
  ∧ ∃ r, find_header_row self df = Ok r
    ∧ ∀ header j, (header, j) ∈ header_indices r ++ optional_indices r →
                  present_match self (window self df) header j.
Proof.
  split; [apply normalize_row_missing|].
  split; [by intros s; simpl; intros ->|].
  destruct (iterrows_present self (window self df)) as (st & Hst & Hpresent).
  exists (result_of self st). split; [by apply find_header_row_result|].
  intros header j. unfold result_of. case_bool_decide; simpl.
  { by intros ?%elem_of_nil. }
  intros [Hin|Hin]%elem_of_app;
    apply indices_of_elem_of in Hin; by apply Hpresent.
Qed.

(** C7 as the specification states it fails: the cell of blanks in the
    first row is equal to the empty alias of "Price". *)
Lemma blank_cells_counterexample :
  ¬ blank_cells_claim empty_alias blanks_frame.
Proof.
  intros Hclaim.
  destruct (Hclaim [Some "Item"; Some "   "] 1 (Some "   ")
              "Price" ["cost"; ""]) as [_ Halias];
    [by left|reflexivity|reflexivity|by left|].
  apply (Halias ""); [|reflexivity]. right. by left.
Qed.

(** The scan of that frame: the column of the cell of blanks is reported
    for "Price". *)
Example blank_cell_reported :
  find_header_row empty_alias blanks_frame
  = Ok {| header_start_row := Some 1;
          header_indices := [("Price", 1)];
          missing_headers := [];
          optional_indices := [] |}.
Proof. reflexivity. Qed.

(** ** Where the code departs from its specification *)

(** C1 (defect of the code). The alias branch of both loops lacks the
    [header not in collected_headers] test of the header branch: the first
    row records column 0 for "Price", and the second row, which holds the
    alias "cost" in column 1, overwrites it; the reported column is 1. *)
Theorem later_alias_overwrites :
  ∃ st1 st2,
    scan_row price_cost 0 [Some "Price"; Some "Qty"] (initial_state price_cost)
    = Ok st1
    ∧ collected_headers st1 !! "Price" = Some 0
    ∧ scan_row price_cost 1 [Some "Unit"; Some "Cost"] st1 = Ok st2
    ∧ collected_headers st2 !! "Price" = Some 1
    ∧ find_header_row price_cost price_then_cost_frame
      = Ok {| header_start_row := Some 2;
              header_indices := [("Price", 1)];
              missing_headers := [];
              optional_indices := [] |}.
Proof.
  eexists _, _. split_and!.
  - vm_compute. reflexivity.
  - reflexivity.
  - vm_compute. reflexivity.
  - reflexivity.
  - reflexivity.
Qed.

(** C2 (defect of the code). Cells are stripped, lowercased and have
    their newlines replaced; headers are stripped and lowercased; aliases are
    only lowercased. An alias declared with a leading blank, an alias
    declared with a newline inside and a header declared with a newline
    inside are not matched by a cell that holds the same text, although the
    normalized texts are equal: the header stays missing. *)
Theorem names_not_normalized :
  (matches_normalized (Some " cost") " cost"
   ∧ parse_csv padded_alias cost_frame = error (not_found ["Price"]))
  ∧ (matches_normalized (Some sale_price_text) sale_price_text
     ∧ parse_csv newline_alias sale_price_frame = error (not_found ["Price"]))
  ∧ (matches_normalized (Some sale_price_text) Sale_Price_text
     ∧ parse_csv newline_header sale_price_frame
       = error (not_found [Sale_Price_text])).
Proof. split_and!; reflexivity. Qed.

(** ** The scenarios of the specification *)

Example strip_lower_replace :
  normalize_cell (Some ("  Year" +:+ newline +:+ "Built ")) = Some "year built".
Proof. reflexivity. Qed.

(** Scenario 7: only "Price" is found, through its alias. *)
Example scenario_partial :
  find_header_row address_price street_cost_frame
  = Ok {| header_start_row := Some 1;
          header_indices := [("Price", 1)];
          missing_headers := ["Address"];
          optional_indices := [] |}
  ∧ parse_csv address_price street_cost_frame = error (not_found ["Address"]).
Proof. split; reflexivity. Qed.

(** Scenario 8: both headers are in the first row. *)
Example scenario_complete :
  parse_csv address_price address_price_frame
  = parsed (Some 1) [("Address", 0); ("Price", 1)] [].
Proof. reflexivity. Qed.

(** Scenario 9: the row holds neither header. *)
Example scenario_none :
  find_header_row address_price [[Some "Street"; Some "Amount"]]
  = Ok (no_headers ["Address"; "Price"]).
Proof. reflexivity. Qed.

(** ** Remarks *)

(** [find_header_row] raises for no schema and no frame: the [except]
    branch of [parse_csv] is not reached from the frame on. *)
Lemma find_header_row_total (self : CSVParser) (df : dataframe) :
  ∃ r, find_header_row self df = Ok r.
Proof.
  destruct (iterrows_present self (window self df)) as (st & Hst & _).
  exists (result_of self st). by apply find_header_row_result.
Qed.

Lemma parse_csv_no_exception (self : CSVParser) (df : dataframe) e :
  parse_csv self df ≠ error_occurred e.
Proof.
  destruct (find_header_row_total self df) as [r Hr].
  unfold parse_csv. rewrite Hr. by case_bool_decide.
Qed.

(** The header branch keeps an earlier entry: a row that holds none of the
    aliases of a collected field leaves its column as it is, whether or not
    the row holds the header. *)
Lemma collected_kept_without_alias (self : CSVParser) (i : nat)
    (row : list cell) (st : scan_state) (header : string)
    (aliases : list string) (j : nat) :
  unique_names self →
  (header, aliases) ∈ fields self →
  collected_headers st !! header = Some j →
  any_alias aliases (normalize_row row) = false →
  ∃ st', scan_row self i row st = Ok st'
         ∧ collected_headers st' !! header = Some j.
Proof.
  intros Hnames Hitem Hc Hno.
  destruct (scan_row_spec self i row st Hnames) as (st' & Hscan & _ & Hrec & _).
  exists st'. split; [done|].
  specialize (Hrec (header, aliases) Hitem). unfold records, matched_name in Hrec.
  rewrite Hc, Hno in Hrec. rewrite bool_decide_eq_false_2 in Hrec by done.
  rewrite andb_false_r in Hrec. simpl in Hrec. by rewrite Hrec.
Qed.

(** Why the names of a schema are taken distinct: with "Address" declared
    on both sides, the optional loop collects it through its alias in the
    first row, and the required loop then skips the header in the second
    row; "Address" is reported with a column and as missing. *)
Example shared_name_collected_and_missing :
  find_header_row shared_name [[Some "Location"]; [Some "Address"]]
  = Ok {| header_start_row := Some 1;
          header_indices := [("Address", 0)];
          missing_headers := ["Address"];
          optional_indices := [("Address", 0)] |}.
Proof. reflexivity. Qed.

(** [head] with a negative count drops rows from the end. *)
Example head_negative :
  df_head (-1) [[Some "a"]; [Some "b"]; [Some "c"]] = [[Some "a"]; [Some "b"]].
Proof. reflexivity. Qed.

(** ** Further properties of [find_header_row] *)

Lemma df_head_app n (df more : dataframe) :
  (0 ≤ n)%Z → (n ≤ Z.of_nat (length df))%Z →
  df_head n (df ++ more) = df_head n df.
Proof.
  intros Hn Hlen. unfold df_head.
  rewrite (proj2 (Z.leb_le 0 n)) by done. apply take_app_le. lia.
Qed.

Lemma df_head_subseteq n (df : dataframe) row :
  row ∈ df_head n df → row ∈ df.
Proof.
  unfold df_head. destruct (0 <=? n)%Z; intros (i & Hi & _)%elem_of_take;
    by apply list_elem_of_lookup_2 in Hi.
Qed.

Lemma df_head_length n (df : dataframe) :
  (length (df_head n df) ≤ length df)%nat.
Proof. unfold df_head. destruct (0 <=? n)%Z; rewrite length_take; lia. Qed.

(** X1. Rows after the first [max_rows] rows are never looked at: appending
    rows to a frame that already has [max_rows] rows changes nothing. *)
Theorem rows_beyond_window_ignored (self : CSVParser) (df more : dataframe) :
  (0 ≤ max_rows self)%Z →
  (max_rows self ≤ Z.of_nat (length df))%Z →
  find_header_row self (df ++ more) = find_header_row self df
  ∧ parse_csv self (df ++ more) = parse_csv self df.
Proof.
  intros Hn Hlen.
  assert (find_header_row self (df ++ more) = find_header_row self df) as Heq.
  { unfold find_header_row. by rewrite df_head_app. }
  split; [done|]. unfold parse_csv. by rewrite Heq.
Qed.

Lemma rows_beyond_window_ignored_witness :
  (0 ≤ max_rows two_rows)%Z
  ∧ (max_rows two_rows ≤ Z.of_nat (length three_rows_frame))%Z
  ∧ find_header_row two_rows (three_rows_frame ++ [[Some "Price"; Some "Notes"]])
    = find_header_row two_rows three_rows_frame
  ∧ parse_csv two_rows (three_rows_frame ++ [[Some "Price"; Some "Notes"]])
    = parse_csv two_rows three_rows_frame.
Proof.
  split; [by vm_compute|]. split; [by vm_compute|].
  apply (rows_beyond_window_ignored two_rows three_rows_frame);
    by vm_compute.
Defined.

Lemma iterrows_last_bound (self : CSVParser) (rows : dataframe) :
  ∃ st, iterrows self 0 rows (initial_state self) = Ok st
    ∧ ∀ i, last_match_row st = Some i → i < length rows.
Proof.
  apply (iterrows_ind self
           (λ pre st, ∀ i, last_match_row st = Some i → i < length pre));
    [done|].
  intros pre row suf st _ Hst.
  assert (∀ body s item,
            matching_step (length pre) (normalize_row row) body →
            (∀ i, last_match_row s = Some i → i < length (pre ++ [row])) →
            ∃ s', body s item = Ok s'
              ∧ ∀ i, last_match_row s' = Some i → i < length (pre ++ [row]))
    as Hstep.
  { intros body s item Hbody Hs.
    destruct (Hbody s item) as (s' & Hs' & Hcase). exists s'. split; [done|].
    destruct (matched_name _ _ item); [|by subst].
    destruct Hcase as (j & _ & _ & ->). intros i [= <-].
    rewrite length_app. simpl. lia. }
  apply scan_row_ind.
  - intros i Hi. apply Hst in Hi. rewrite length_app. lia.
  - intros s item _ Hs. by apply Hstep; [apply match_required_step|].
  - intros s item _ Hs. by apply Hstep; [apply match_optional_step|].
Qed.

(** X2. A start row that [find_header_row] returns is a row label of the
    frame plus one: it lies between 1 and the number of rows of the
    window, which is at most the number of rows of the frame. *)
Theorem start_row_bounds (self : CSVParser) (df : dataframe) :
  ∃ r, find_header_row self df = Ok r
    ∧ ∀ s, header_start_row r = Some s →
        (1 ≤ s)%nat ∧ (s ≤ length (window self df))%nat
        ∧ (length (window self df) ≤ length df)%nat.
Proof.
  destruct (iterrows_last_bound self (window self df)) as (st & Hst & Hlast).
  exists (result_of self st). split; [by apply find_header_row_result|].
  intros s. unfold result_of. case_bool_decide; simpl; [done|].
  destruct (last_match_row st) as [i|]; simpl; [|done]. intros [= <-].
  specialize (Hlast i eq_refl). split_and!; [lia..|]. apply df_head_length.
Qed.

(** X3. On a frame whose rows all have [len_columns] cells, every column
    that [find_header_row] reports, for a required or an optional header, is
    a column of the frame. *)
Theorem reported_columns_in_bounds (self : CSVParser) (df : DataFrame) :
  frame_ok df →
  ∃ r, find_header_row self (values df) = Ok r
    ∧ ∀ header j, (header, j) ∈ header_indices r ++ optional_indices r →
                  j < len_columns df.
Proof.
  intros Hok.
  destruct (iterrows_present self (window self (values df)))
    as (st & Hst & Hpresent).
  exists (result_of self st). split; [by apply find_header_row_result|].
  assert (∀ header j, collected_headers st !! header = Some j →
                      j < len_columns df) as Hbound.
  { intros header j (row & s & _ & Hrow & Hcell & _)%Hpresent.
    apply df_head_subseteq in Hrow. unfold frame_ok in Hok.
    rewrite Forall_forall in Hok. rewrite <-(Hok row Hrow).
    by apply lookup_lt_Some in Hcell. }
  intros header j. unfold result_of. case_bool_decide; simpl.
  { by intros ?%elem_of_nil. }
  intros [Hin|Hin]%elem_of_app;
    apply indices_of_elem_of in Hin; by apply (Hbound header).
Qed.

Lemma reported_columns_in_bounds_witness :
  frame_ok listing_frame
  ∧ ∃ r, find_header_row two_rows (values listing_frame) = Ok r
    ∧ ∀ header j, (header, j) ∈ header_indices r ++ optional_indices r →
                  j < len_columns listing_frame.
Proof.
  assert (frame_ok listing_frame) as Hok
    by (apply (bool_decide_unpack _); vm_compute; exact I).
  split; [exact Hok|].
  apply (reported_columns_in_bounds two_rows listing_frame Hok).
Defined.

(** X4. An empty window, that of a frame without rows or of [max_rows = 0],
    finds nothing: [find_header_row] returns through its first [return] with
    all required headers missing, and [parse_csv] reports them all, or
    succeeds with nothing when there is no required header. *)
Theorem empty_window (self : CSVParser) (df : dataframe) :
  df = [] ∨ max_rows self = 0%Z →
  find_header_row self df = Ok (no_headers (required_headers self).*1)
  ∧ parse_csv self df
    = match required_headers self with
      | [] => parsed None [] []
      | _ => error (not_found (required_headers self).*1)
      end.
Proof.
  intros Hempty.
  assert (df_head (max_rows self) df = []) as Hwin.
  { destruct Hempty as [->| ->]; [|done]. unfold df_head.
    destruct (0 <=? max_rows self)%Z; apply take_nil. }
  assert (find_header_row self df = Ok (no_headers (required_headers self).*1))
    as Hr.
  { unfold find_header_row. rewrite Hwin. simpl.
    rewrite bool_decide_eq_true_2; [done|].
    rewrite dom_empty_L. apply (left_absorb_L ∅ (∩)). }
  split; [done|]. unfold parse_csv. rewrite Hr. simpl.
  by destruct (required_headers self).
Qed.

Lemma empty_window_witness :
  (([] : dataframe) = [] ∨ max_rows address_price = 0%Z)
  ∧ find_header_row address_price []
    = Ok (no_headers (required_headers address_price).*1)
  ∧ parse_csv address_price []
    = match required_headers address_price with
      | [] => parsed None [] []
      | _ => error (not_found (required_headers address_price).*1)
      end.
Proof.
  split; [by left|]. apply (empty_window address_price []). by left.
Defined.

(** ** What is reported for the required headers *)

Lemma remove_elem_of_ne {A} `{EqDecision A} (x y : A) (l r : list A) :
  remove x l = Ok r → y ≠ x → y ∈ l → y ∈ r.
Proof.
  revert r. induction l as [|z l IH]; intros r; simpl; [done|].
  destruct (decide (z = x)) as [->|Hne].
  - intros [= <-] Hy [->|Hin]%elem_of_cons; done.
  - destruct (remove x l) as [r'|] eqn:Hr; simpl; [|done].
    intros [= <-] Hy [->|Hin]%elem_of_cons; [by left|].
    right. by apply IH.
Qed.

Lemma indices_of_keys d (collected : gmap string nat) :
  (indices_of d collected).*1 = filter (λ h, is_Some (collected !! h)) d.*1.
Proof.
  unfold indices_of. induction d.*1 as [|key keys IH]; [done|]. simpl.
  destruct (collected !! key) as [j|] eqn:Hkey; simpl.
  - rewrite filter_cons_True by (by rewrite Hkey). f_equal. exact IH.
  - rewrite filter_cons_False; [exact IH|].
    rewrite Hkey. by intros ?%is_Some_None.
Qed.

Lemma indices_of_ext d (c1 c2 : gmap string nat) :
  (∀ key, key ∈ d.*1 → c1 !! key = c2 !! key) →
  indices_of d c1 = indices_of d c2.
Proof.
  unfold indices_of. induction d.*1 as [|key keys IH]; intros Hext; [done|].
  simpl. rewrite (Hext key) by (by left).
  destruct (c2 !! key); simpl; [f_equal|]; apply IH;
    intros k Hk; apply Hext; by right.
Qed.

Lemma indices_of_none d (collected : gmap string nat) :
  (∀ key, key ∈ d.*1 → collected !! key = None) → indices_of d collected = [].
Proof.
  unfold indices_of. induction d.*1 as [|key keys IH]; intros Hnone; [done|].
  simpl. rewrite (Hnone key) by (by left). simpl. apply IH.
  intros k Hk. apply Hnone. by right.
Qed.

(** The first [return] reports as many required columns as the second
    would: none. *)
Lemma header_indices_result_of self st :
  header_indices (result_of self st)
  = indices_of (required_headers self) (collected_headers st).
Proof.
  unfold result_of. case_bool_decide as Hempty; simpl; [|done].
  symmetry. apply indices_of_none. intros key Hkey.
  destruct (collected_headers st !! key) as [j|] eqn:Hj; [|done].
  assert (key ∈ dom (collected_headers st)
                ∩ list_to_set (required_headers self).*1) as Hin.
  { apply elem_of_intersection. split; [by apply elem_of_dom|].
    by apply elem_of_list_to_set. }
  rewrite Hempty in Hin. by apply elem_of_empty in Hin.
Qed.

Lemma collect_required_kept header j i st st' :
  collect_required header j i st = Ok st' →
  collected_headers st' = <[header := j]> (collected_headers st)
  ∧ last_match_row st' = Some i
  ∧ ∀ y, y ≠ header → y ∈ missing_required_headers st →
         y ∈ missing_required_headers st'.
Proof.
  unfold collect_required. case_bool_decide as Hin.
  - destruct (remove header (missing_required_headers st)) as [r|] eqn:Hr;
      simpl; [|done].
    intros [= <-]. simpl. split_and!; [done..|].
    intros y Hne Hy. by apply (remove_elem_of_ne header y _ r Hr).
  - simpl. intros [= <-]. by split_and!.
Qed.

(** For every schema: a required header that has left the list of missing
    headers is collected, and a state that has collected something has a
    last matching row. *)
Lemma iterrows_accounted (self : CSVParser) (rows : dataframe) :
  ∃ st, iterrows self 0 rows (initial_state self) = Ok st
    ∧ (∀ h, h ∈ (required_headers self).*1 →
            h ∈ missing_required_headers st
            ∨ is_Some (collected_headers st !! h))
    ∧ (∀ h, is_Some (collected_headers st !! h) →
            is_Some (last_match_row st)).
Proof.
  set (P := λ st : scan_state,
    (∀ h, h ∈ (required_headers self).*1 →
          h ∈ missing_required_headers st ∨ is_Some (collected_headers st !! h))
    ∧ (∀ h, is_Some (collected_headers st !! h) → is_Some (last_match_row st))).
  apply (iterrows_ind self (λ _, P)).
  { split; [by left|]. intros h. simpl. rewrite lookup_empty.
    by intros ?%is_Some_None. }
  intros pre row suf st _ HP. apply scan_row_ind; [done|..].
  - intros s [header aliases] _ [Hacc Hlast]. rewrite match_required_eq.
    destruct (matched_name _ _ _) as [x|] eqn:Hm; [|by exists s].
    apply matched_name_Some in Hm as [Hin _].
    destruct (index_elem_of _ _ Hin) as [j ->]. simpl.
    destruct (collect_required_Ok header j (length pre) s) as (s' & Hs' & _).
    exists s'. split; [done|].
    apply collect_required_kept in Hs' as (Hc & Hl & Hkept). split.
    + intros h Hh. rewrite Hc. destruct (decide (h = header)) as [->|Hne].
      * right. by rewrite lookup_insert_eq.
      * rewrite lookup_insert_ne by done.
        destruct (Hacc h Hh) as [Hmiss|Hsome]; [left; by apply Hkept|by right].
    + intros h _. by rewrite Hl.
  - intros s item _ [Hacc Hlast].
    destruct (match_optional_step (length pre) (normalize_row row) s item)
      as (s' & Hs' & Hstep).
    exists s'. split; [done|].
    pose proof (match_optional_missing_eq _ _ _ _ _ Hs') as Hmiss.
    destruct (matched_name _ _ item); [|by subst].
    destruct Hstep as (j & _ & Hc & Hl). split.
    + intros h Hh. rewrite Hmiss, Hc.
      destruct (Hacc h Hh) as [?|Hsome]; [by left|right].
      destruct (decide (item.1 = h)) as [->|Hne];
        [by rewrite lookup_insert_eq|by rewrite lookup_insert_ne].
    + intros h _. by rewrite Hl.
Qed.

(** X5. For a schema with distinct names, every required header is reported
    exactly once: with a column in [header_indices], or in the list of
    missing headers; both follow the declaration order. *)
Theorem required_reported_once (self : CSVParser) (df : dataframe) :
  unique_names self →
  ∃ r, find_header_row self df = Ok r
    ∧ (header_indices r).*1
      = filter (λ h, h ∉ missing_headers r) (required_headers self).*1
    ∧ missing_headers r
      = filter (λ h, h ∉ (header_indices r).*1) (required_headers self).*1.
Proof.
  intros Hnames.
  destruct (find_header_row_inv self Hnames df) as (st & Hr & Hinv).
  exists (result_of self st). split; [done|].
  rewrite header_indices_result_of, missing_headers_result_of, indices_of_keys.
  rewrite (inv_missing _ _ _ Hinv).
  split; apply filter_ext_elem_of; intros h Hh;
    rewrite ?(inv_missing _ _ _ Hinv), list_elem_of_filter, <-not_eq_None_Some.
  - split; [by intros Hsome [Hnone _]|]. intros Hnot Hnone. by apply Hnot.
  - split; [by intros Hnone [Hsome _]|]. intros Hnot.
    destruct (collected_headers st !! h) eqn:Hc; [|done].
    destruct Hnot. by split.
Qed.

Lemma required_reported_once_witness :
  unique_names address_price
  ∧ ∃ r, find_header_row address_price street_cost_frame = Ok r
    ∧ (header_indices r).*1
      = filter (λ h, h ∉ missing_headers r) (required_headers address_price).*1
    ∧ missing_headers r
      = filter (λ h, h ∉ (header_indices r).*1)
               (required_headers address_price).*1.
Proof.
  split; [distinct_names|].
  apply (required_reported_once address_price street_cost_frame).
  distinct_names.
Defined.

(** X6. For every schema: when [parse_csv] returns the resolved mapping,
    [header_indices] has a column for every required header, in declaration
    order, and when there is a required header the start row is set, to a
    value between 1 and the number of rows of the frame. *)
Theorem parsed_reports_all_required (self : CSVParser) (df : dataframe)
    start hi oi :
  parse_csv self df = parsed start hi oi →
  hi.*1 = (required_headers self).*1
  ∧ (required_headers self ≠ [] →
     ∃ s, start = Some s ∧ (1 ≤ s)%nat ∧ (s ≤ length df)%nat).
Proof.
  intros Hparse.
  destruct (iterrows_accounted self (window self df))
    as (st & Hst & Hacc & Hlast).
  destruct (iterrows_last_bound self (window self df)) as (st' & Hst' & Hbound).
  unfold window in *. rewrite Hst in Hst'. injection Hst' as <-.
  apply find_header_row_result in Hst.
  unfold parse_csv in Hparse. rewrite Hst in Hparse.
  case_bool_decide as Hmiss; [done|]. injection Hparse as <- <- <-.
  rewrite missing_headers_result_of in Hmiss.
  destruct (missing_required_headers st) as [|h0 m] eqn:Hm;
    [|simpl in Hmiss; lia].
  assert (∀ h, h ∈ (required_headers self).*1 →
               is_Some (collected_headers st !! h)) as Hall.
  { intros h Hh. destruct (Hacc h Hh) as [Hin|]; [|done].
    by apply elem_of_nil in Hin. }
  split.
  - rewrite header_indices_result_of, indices_of_keys. by apply filter_all.
  - intros Hne. destruct (required_headers self) as [|[h al] req] eqn:Hreq;
      [done|].
    assert (is_Some (collected_headers st !! h)) as Hh
      by (apply Hall; rewrite fmap_cons; by left).
    unfold result_of. rewrite Hreq. rewrite bool_decide_eq_false_2.
    + simpl. destruct (Hlast h Hh) as [i Hi]. rewrite Hi. simpl.
      exists (S i). split; [done|]. specialize (Hbound i Hi).
      pose proof (df_head_length (max_rows self) df). lia.
    + intros Hempty.
      assert (h ∈ dom (collected_headers st)
                  ∩ list_to_set ((h, al) :: req).*1) as Hin.
      { apply elem_of_intersection. split; [by apply elem_of_dom|].
        apply elem_of_list_to_set. rewrite fmap_cons. by left. }
      rewrite Hempty in Hin. by apply elem_of_empty in Hin.
Qed.

Lemma parsed_reports_all_required_witness :
  parse_csv address_price address_price_frame
  = parsed (Some 1) [("Address", 0); ("Price", 1)] []
  ∧ [("Address", 0); ("Price", 1)].*1 = (required_headers address_price).*1
  ∧ (required_headers address_price ≠ [] →
     ∃ s, Some 1 = Some s ∧ (1 ≤ s)%nat
          ∧ (s ≤ length address_price_frame)%nat).
Proof.
  split; [reflexivity|].
  apply (parsed_reports_all_required address_price address_price_frame
           (Some 1) [("Address", 0); ("Price", 1)] []).
  reflexivity.
Defined.

Section two_schemas.
Context (self self' : CSVParser).
Context (Hnames : unique_names self) (Hnames' : unique_names self').
Context (Hrequired : required_headers self' = required_headers self).

(** Two schemas with the same required headers collect the same columns
    for them, row after row. *)
Lemma iterrows_required_agree rows i st st' :
  (∀ item, item ∈ required_headers self →
     collected_headers st !! item.1 = collected_headers st' !! item.1) →
  ∃ s s', iterrows self i rows st = Ok s
    ∧ iterrows self' i rows st' = Ok s'
    ∧ ∀ item, item ∈ required_headers self →
        collected_headers s !! item.1 = collected_headers s' !! item.1.
Proof.
  revert i st st'. induction rows as [|row rows IH]; intros i st st' Hagree.
  { by exists st, st'. }
  destruct (scan_row_spec self i row st Hnames) as (s1 & Hs1 & _ & Hrec & _).
  destruct (scan_row_spec self' i row st' Hnames') as (s1' & Hs1' & _ & Hrec' & _).
  destruct (IH (S i) s1 s1') as (s & s' & Hs & Hs' & Hfinal).
  { intros [h al] Hitem.
    specialize (Hrec (h, al) (required_fields self _ Hitem)).
    assert ((h, al) ∈ fields self') as Hitem'
      by (apply required_fields; by rewrite Hrequired).
    specialize (Hrec' (h, al) Hitem'). unfold records in *.
    rewrite (matched_name_ext _ _ (collected_headers st') h al) in Hrec
      by apply (Hagree (h, al) Hitem).
    destruct (matched_name _ _ _).
    - destruct Hrec as (j & Hj & ->), Hrec' as (j' & Hj' & ->). congruence.
    - rewrite Hrec, Hrec'. apply (Hagree (h, al) Hitem). }
  exists s, s'. simpl. rewrite Hs1, Hs1'. by split_and!.
Qed.

End two_schemas.

Lemma seen_take n rows item :
  seen (take n rows) item = true → seen rows item = true.
Proof.
  unfold seen. rewrite !existsb_exists.
  intros (row & Hrow%list_elem_of_In & Hnamed). exists row. split; [|done].
  apply list_elem_of_In. apply elem_of_take in Hrow as (i & Hi & _).
  by apply list_elem_of_lookup_2 in Hi.
Qed.

(** X7. Optional headers never block and never change what is reported
    for the required ones: two schemas with distinct names, the same
    required headers and the same [max_rows] report the same required
    columns and the same missing headers, hence the same error. *)
Theorem optional_never_blocks (self self' : CSVParser) (df : dataframe) :
  unique_names self → unique_names self' →
  required_headers self' = required_headers self →
  max_rows self' = max_rows self →
  ∃ r r', find_header_row self df = Ok r
    ∧ find_header_row self' df = Ok r'
    ∧ header_indices r' = header_indices r
    ∧ missing_headers r' = missing_headers r
    ∧ ∀ message, parse_csv self' df = error message
                 ↔ parse_csv self df = error message.
Proof.
  intros Hnames Hnames' Hreq Hmax.
  destruct (iterrows_inv self Hnames (window self df)) as (st & Hst & Hinv).
  destruct (iterrows_inv self' Hnames' (window self' df)) as (st' & Hst' & Hinv').
  assert (window self' df = window self df) as Hwin
    by (unfold window; by rewrite Hmax).
  rewrite Hwin in Hst', Hinv'.
  destruct (iterrows_required_agree self self' Hnames Hnames' Hreq
              (window self df) 0 (initial_state self) (initial_state self'))
    as (s & s' & Hs & Hs' & Hagree); [done|].
  rewrite Hst in Hs. rewrite Hst' in Hs'.
  injection Hs as <-. injection Hs' as <-.
  pose proof (find_header_row_result self df st Hst) as Hr.
  rewrite <-Hwin in Hst'.
  pose proof (find_header_row_result self' df st' Hst') as Hr'.
  assert (missing_headers (result_of self' st')
          = missing_headers (result_of self st)) as Hmiss.
  { rewrite !missing_headers_result_of.
    rewrite (scan_inv_unmatched self _ _ Hinv).
    rewrite (scan_inv_unmatched self' _ _ Hinv').
    unfold unmatched. by rewrite Hreq. }
  exists (result_of self st), (result_of self' st'). split_and!; [done..| |done|].
  - rewrite !header_indices_result_of, Hreq. symmetry.
    apply indices_of_ext. intros key (item & -> & Hitem)%list_elem_of_fmap.
    by apply Hagree.
  - intros message. unfold parse_csv. rewrite Hr, Hr', Hmiss.
    by case_bool_decide.
Qed.

Lemma optional_never_blocks_witness :
  unique_names address_price ∧ unique_names address_price_only
  ∧ required_headers address_price_only = required_headers address_price
  ∧ max_rows address_price_only = max_rows address_price
  ∧ ∃ r r', find_header_row address_price street_cost_frame = Ok r
    ∧ find_header_row address_price_only street_cost_frame = Ok r'
    ∧ header_indices r' = header_indices r
    ∧ missing_headers r' = missing_headers r
    ∧ ∀ message,
        parse_csv address_price_only street_cost_frame = error message
        ↔ parse_csv address_price street_cost_frame = error message.
Proof.
  split; [distinct_names|]. split; [distinct_names|].
  split; [reflexivity|]. split; [reflexivity|].
  apply (optional_never_blocks address_price address_price_only
           street_cost_frame);
    [distinct_names|distinct_names|reflexivity|reflexivity].
Defined.

(** X8. Scanning more rows never loses a required header: for schemas
    with distinct names and the same required headers, a header missing
    with the larger [max_rows] is missing with the smaller one. *)
Theorem more_rows_never_lose (self self' : CSVParser) (df : dataframe) :
  unique_names self → unique_names self' →
  required_headers self' = required_headers self →
  (0 ≤ max_rows self)%Z → (max_rows self ≤ max_rows self')%Z →
  ∃ r r', find_header_row self df = Ok r
    ∧ find_header_row self' df = Ok r'
    ∧ ∀ h, h ∈ missing_headers r' → h ∈ missing_headers r.
Proof.
  intros Hnames Hnames' Hreq Hpos Hle.
  destruct (find_header_row_inv self Hnames df) as (st & Hr & Hinv).
  destruct (find_header_row_inv self' Hnames' df) as (st' & Hr' & Hinv').
  exists (result_of self st), (result_of self' st'). split_and!; [done..|].
  rewrite !missing_headers_result_of.
  rewrite (scan_inv_unmatched self _ _ Hinv).
  rewrite (scan_inv_unmatched self' _ _ Hinv').
  unfold unmatched. rewrite Hreq. intros h.
  rewrite !list_elem_of_fmap. intros (item & -> & Hitem). exists item.
  split; [done|]. apply list_elem_of_filter in Hitem as [Hseen Hitem].
  apply list_elem_of_filter. split; [|done].
  apply not_true_iff_false. intros Hs. apply not_true_iff_false in Hseen.
  apply Hseen. assert (window self df
                       = take (Z.to_nat (max_rows self)) (window self' df)) as Hwin.
  { unfold window, df_head.
    rewrite (proj2 (Z.leb_le 0 (max_rows self))) by done.
    rewrite (proj2 (Z.leb_le 0 (max_rows self'))) by lia.
    rewrite take_take. f_equal. lia. }
  rewrite Hwin in Hs. by apply seen_take in Hs.
Qed.

Lemma more_rows_never_lose_witness :
  unique_names two_rows ∧ unique_names address_price
  ∧ required_headers address_price = required_headers two_rows
  ∧ (0 ≤ max_rows two_rows)%Z
  ∧ (max_rows two_rows ≤ max_rows address_price)%Z
  ∧ ∃ r r', find_header_row two_rows three_rows_frame = Ok r
    ∧ find_header_row address_price three_rows_frame = Ok r'
    ∧ ∀ h, h ∈ missing_headers r' → h ∈ missing_headers r.
Proof.
  split; [distinct_names|]. split; [distinct_names|].
  split; [reflexivity|]. split; [by vm_compute|]. split; [by vm_compute|].
  apply (more_rows_never_lose two_rows address_price three_rows_frame);
    [distinct_names|distinct_names|reflexivity|by vm_compute|by vm_compute].
Defined.

(** ** [__init__] *)

Lemma parse_csv_without_required (self : CSVParser) (df : dataframe) :
  required_headers self = [] → parse_csv self df = parsed None [] [].
Proof.
  intros Hnil.
  destruct (find_header_row_no_required self df) as (st & Hr & Hmiss & _).
  { by apply no_required_named_nil. }
  rewrite (parse_csv_complete self df _ Hr);
    rewrite ?missing_headers_result_of, ?Hmiss, ?Hnil; [|done].
  unfold result_of. rewrite Hnil. simpl.
  by rewrite bool_decide_eq_true_2 by apply (right_absorb_L ∅ (∩)).
Qed.

(** X9. A parser built from a dictionary without the key "required" has
    no required header: whatever the frame and the optional headers,
    [parse_csv] reports no error, no start row and no column. *)
Theorem init_without_required (headers : gmap string headers_dict)
    (n : Z) (df : dataframe) :
  headers !! "required" = None →
  required_headers (__init__ headers n) = []
  ∧ parse_csv (__init__ headers n) df = parsed None [] [].
Proof.
  intros Hnone.
  assert (required_headers (__init__ headers n) = []) as Hreq.
  { unfold __init__. simpl. by rewrite Hnone. }
  split; [done|]. by apply parse_csv_without_required.
Qed.

Lemma init_without_required_witness :
  optional_headers_only !! "required" = None
  ∧ required_headers (__init__ optional_headers_only 5) = []
  ∧ parse_csv (__init__ optional_headers_only 5) notes_frame
    = parsed None [] [].
Proof.
  split; [reflexivity|].
  apply (init_without_required optional_headers_only 5 notes_frame).
  reflexivity.
Defined.

(** ** Slices and [get_x_rows_for_index] *)

Lemma slice_bound_nonneg n (a : nat) :
  slice_bound n (Z.of_nat a) = a `min` n.
Proof.
  unfold slice_bound. rewrite (proj2 (Z.ltb_ge _ _)) by lia. lia.
Qed.

(** [l[a : a + x]] for a start and a count that are not negative: at most
    [x] elements, from position [a] on; short, or empty, at the end of the
    list. *)
Lemma lookup_slice {A} (l : list A) (a x k : nat) :
  slice (Z.of_nat a) (Z.of_nat a + Z.of_nat x) l !! k
  = if decide (k < x) then l !! (a + k) else None.
Proof.
  unfold slice. rewrite <-Nat2Z.inj_add, !slice_bound_nonneg.
  case_decide as Hk.
  - destruct (decide (a + k < length l)) as [Hin|Hout].
    + rewrite lookup_take_lt by lia. rewrite lookup_drop. f_equal. lia.
    + rewrite (lookup_ge_None_2 l (a + k)) by lia.
      apply lookup_ge_None_2. rewrite length_take, length_drop. lia.
  - apply lookup_ge_None_2. rewrite length_take, length_drop. lia.
Qed.

Lemma length_slice {A} (l : list A) (a x : nat) :
  length (slice (Z.of_nat a) (Z.of_nat a + Z.of_nat x) l)
  = x `min` (length l - a).
Proof.
  unfold slice. rewrite <-Nat2Z.inj_add, !slice_bound_nonneg.
  rewrite length_take, length_drop. lia.
Qed.

Lemma length_slice_le {A} (l : list A) (a x : Z) :
  (0 ≤ x)%Z → (Z.of_nat (length (slice a (a + x) l)) ≤ x)%Z.
Proof.
  intros Hx.
  unfold slice, slice_bound. rewrite length_take, length_drop.
  destruct (Z.ltb_spec (a + x) 0), (Z.ltb_spec a 0); lia.
Qed.

Lemma iloc_position_nonneg n (c : nat) :
  c < n → iloc_position n (Z.of_nat c) = Returns c.
Proof.
  intros Hc. unfold iloc_position.
  rewrite (proj2 (Z.ltb_ge _ _)) by lia.
  rewrite (proj2 (Z.leb_gt _ _)) by lia. simpl.
  rewrite (proj2 (Z.ltb_ge _ _)) by lia. f_equal. lia.
Qed.

(** X10. The series [get_x_rows_for_index] returns for a column [c] of the
    frame, a start row [a] and a count [x]: its [k]-th value, for [k < x],
    is the cell of row [a + k] in column [c]; it has [x] values, or fewer
    when the frame ends before, and none when [a] is past the last row. *)
Theorem get_x_rows_for_index_values (df : DataFrame) (c a x : nat) :
  frame_ok df →
  c < len_columns df →
  ∃ series,
    get_x_rows_for_index df (Some (Z.of_nat c)) (Some (Z.of_nat a)) (Z.of_nat x)
    = Returns series
    ∧ length series = x `min` (length (values df) - a)
    ∧ ∀ k row, k < x → values df !! (a + k) = Some row →
        ∃ v, row !! c = Some v ∧ series !! k = Some v.
Proof.
  intros Hok Hc. unfold get_x_rows_for_index, iloc_rows_column.
  rewrite (proj2 (Z.leb_gt _ _)) by lia.
  rewrite iloc_position_nonneg by done. simpl.
  eexists. split; [done|]. split.
  - by rewrite length_fmap, length_slice.
  - intros k row Hk Hrow. rewrite list_lookup_fmap, lookup_slice.
    rewrite decide_True by done. rewrite Hrow. simpl.
    unfold frame_ok in Hok. rewrite Forall_forall in Hok.
    assert (length row = len_columns df) as Hlen.
    { apply Hok. by apply list_elem_of_lookup_2 in Hrow. }
    destruct (lookup_lt_is_Some_2 row c) as [v Hv]; [lia|].
    exists v. split; [done|]. unfold cell_at. by rewrite Hv.
Qed.

Lemma get_x_rows_for_index_values_witness :
  frame_ok listing_frame
  ∧ 2 < len_columns listing_frame
  ∧ ∃ series,
    get_x_rows_for_index listing_frame (Some (Z.of_nat 2)) (Some (Z.of_nat 1))
                         (Z.of_nat 5)
    = Returns series
    ∧ length series = 5 `min` (length (values listing_frame) - 1)
    ∧ ∀ k row, k < 5 → values listing_frame !! (1 + k) = Some row →
        ∃ v, row !! 2 = Some v ∧ series !! k = Some v.
Proof.
  assert (frame_ok listing_frame) as Hok
    by (apply (bool_decide_unpack _); vm_compute; exact I).
  assert (2 < len_columns listing_frame) as Hc by (vm_compute; lia).
  split; [exact Hok|]. split; [exact Hc|].
  apply (get_x_rows_for_index_values listing_frame 2 1 5 Hok Hc).
Defined.

(** X11. A negative column index is not rejected: from [-1] down to
    [-len(df.columns)] it counts the columns from the right. *)
Theorem get_x_rows_for_index_negative (df : DataFrame) (c : Z)
    (header_start_row : option Z) (x : Z) :
  (- Z.of_nat (len_columns df) ≤ c)%Z → (c < 0)%Z →
  get_x_rows_for_index df (Some c) header_start_row x
  = get_x_rows_for_index df (Some (c + Z.of_nat (len_columns df))%Z)
                         header_start_row x.
Proof.
  intros Hlo Hneg. unfold get_x_rows_for_index, iloc_rows_column.
  rewrite !(proj2 (Z.leb_gt _ _)) by lia.
  destruct header_start_row as [a|]; [|done].
  unfold iloc_position.
  rewrite !(proj2 (Z.ltb_ge _ _)) by lia.
  rewrite !(proj2 (Z.leb_gt _ _)) by lia. simpl.
  rewrite (proj2 (Z.ltb_lt c 0)) by lia.
  rewrite (proj2 (Z.ltb_ge (c + Z.of_nat (len_columns df))
                           (- Z.of_nat (len_columns df)))) by lia.
  by rewrite (proj2 (Z.ltb_ge (c + Z.of_nat (len_columns df)) 0)) by lia.
Qed.

Lemma get_x_rows_for_index_negative_witness :
  (- Z.of_nat (len_columns listing_frame) ≤ -1)%Z ∧ (-1 < 0)%Z
  ∧ get_x_rows_for_index listing_frame (Some (-1)%Z) (Some 1%Z) 3
    = get_x_rows_for_index listing_frame
        (Some (-1 + Z.of_nat (len_columns listing_frame))%Z) (Some 1%Z) 3.
Proof.
  split; [by vm_compute|]. split; [by vm_compute|].
  apply (get_x_rows_for_index_negative listing_frame (-1) (Some 1%Z) 3);
    by vm_compute.
Defined.

(** X12. With a column index from [-len(df.columns)] up to
    [len(df.columns) - 1], a start row that is set and a count that is not
    negative, [get_x_rows_for_index] does not raise, wherever the start row
    lies: a start row outside the frame gives a shorter or an empty series,
    of at most [x] values. *)
Theorem get_x_rows_for_index_returns (df : DataFrame) (c a x : Z) :
  (- Z.of_nat (len_columns df) ≤ c)%Z → (c < Z.of_nat (len_columns df))%Z →
  (0 ≤ x)%Z →
  ∃ series,
    get_x_rows_for_index df (Some c) (Some a) x = Returns series
    ∧ (Z.of_nat (length series) ≤ x)%Z.
Proof.
  intros Hlo Hhi Hx.
  unfold get_x_rows_for_index, iloc_rows_column, iloc_position.
  rewrite (proj2 (Z.leb_gt _ _)) by lia.
  rewrite (proj2 (Z.ltb_ge _ _)) by lia. simpl.
  eexists. split; [done|]. rewrite length_fmap. by apply length_slice_le.
Qed.

Lemma get_x_rows_for_index_returns_witness :
  (- Z.of_nat (len_columns listing_frame) ≤ -3)%Z
  ∧ (-3 < Z.of_nat (len_columns listing_frame))%Z
  ∧ (0 ≤ 2)%Z
  ∧ ∃ series,
    get_x_rows_for_index listing_frame (Some (-3)%Z) (Some 9%Z) 2
    = Returns series
    ∧ (Z.of_nat (length series) ≤ 2)%Z.
Proof.
  split; [by vm_compute|]. split; [by vm_compute|]. split; [by vm_compute|].
  apply (get_x_rows_for_index_returns listing_frame (-3) 9 2);
    by vm_compute.
Defined.

(** ** [get_rows_for_indexes] *)

Section dict.
Context {K V : Type} `{EqDecision K}.

Lemma dict_get_set_eq (k : K) (v : V) d : dict_get k (dict_set k v d) = Some v.
Proof.
  induction d as [|[k' v'] d IH]; simpl.
  - by rewrite decide_True.
  - destruct (decide (k' = k)) as [->|Hne]; simpl.
    + by rewrite decide_True.
    + by rewrite decide_False.
Qed.

Lemma dict_get_set_ne (k k0 : K) (v : V) d :
  k0 ≠ k → dict_get k0 (dict_set k v d) = dict_get k0 d.
Proof.
  intros Hne. induction d as [|[k' v'] d IH]; simpl.
  - by rewrite decide_False.
  - destruct (decide (k' = k)) as [->|Hne']; simpl.
    + by rewrite !decide_False.
    + destruct (decide (k' = k0)); [done|]. exact IH.
Qed.

Lemma dict_set_keys (k k0 : K) (v : V) d :
  k0 ∈ (dict_set k v d).*1 ↔ k0 = k ∨ k0 ∈ d.*1.
Proof.
  induction d as [|[k' v'] d IH]; simpl.
  - rewrite list_elem_of_singleton. split; [by left|].
    by intros [?|?%elem_of_nil].
  - destruct (decide (k' = k)) as [->|Hne]; simpl;
      rewrite !elem_of_cons; [tauto|]. rewrite IH. tauto.
Qed.

Lemma dict_set_NoDup (k : K) (v : V) d :
  NoDup d.*1 → NoDup (dict_set k v d).*1.
Proof.
  induction d as [|[k' v'] d IH]; simpl.
  - intros _. apply NoDup_singleton.
  - intros [Hfresh Hnd]%NoDup_cons.
    destruct (decide (k' = k)) as [->|Hne]; simpl.
    + by apply NoDup_cons.
    + apply NoDup_cons. split; [|by apply IH].
      rewrite dict_set_keys. intros [?|?]; [by apply Hne|done].
Qed.

End dict.

Section rows_for_indexes.
Context (df : DataFrame) (header_start_row : option Z) (rows : Z).

(** The only exception of [iloc] on a slice and an integer. *)
Lemma iloc_rows_column_raises a b c e :
  iloc_rows_column df a b c = Raises e → e = Exc.IndexError.
Proof.
  unfold iloc_rows_column, iloc_position.
  destruct (_ || _); simpl; [by intros [= <-]|done].
Qed.

(** The body of the loop files, under the index, what
    [get_x_rows_for_index] returns for it, or the message when it raises a
    [ValueError]. *)
Lemma rows_for_indexes_cons index column_indexes results :
  rows_for_indexes df (index :: column_indexes) header_start_row rows results
  = entry ← entry_for df header_start_row rows index;
    rows_for_indexes df column_indexes header_start_row rows
                     (dict_set index entry results).
Proof.
  simpl. unfold entry_for, get_x_rows_for_index.
  destruct index as [c|]; [|done].
  destruct (Z.of_nat (len_columns df) <=? c)%Z; [done|].
  destruct header_start_row as [a|]; [|done].
  destruct (iloc_rows_column df a (a + rows) c) as [series|e] eqn:Hiloc;
    [done|].
  by rewrite (iloc_rows_column_raises _ _ _ _ Hiloc).
Qed.

Lemma entry_for_raises index e :
  entry_for df header_start_row rows index = Raises e →
  e = Exc.TypeError ∨ e = Exc.IndexError.
Proof.
  unfold entry_for.
  destruct (get_x_rows_for_index _ _ _ _) as [s|[m| |]]; simpl; try done;
    intros [= <-]; [by left|by right].
Qed.

Lemma rows_for_indexes_raises column_indexes results e :
  rows_for_indexes df column_indexes header_start_row rows results = Raises e →
  e = Exc.TypeError ∨ e = Exc.IndexError.
Proof.
  revert results. induction column_indexes as [|index l IH]; intros results.
  { done. }
  rewrite rows_for_indexes_cons.
  destruct (entry_for _ _ _ index) as [entry|e'] eqn:Hentry; simpl.
  - apply IH.
  - intros [= <-]. by apply (entry_for_raises index).
Qed.

Lemma rows_for_indexes_spec column_indexes results d :
  rows_for_indexes df column_indexes header_start_row rows results = Returns d →
  (∀ index, index ∈ column_indexes →
     ∃ entry, entry_for df header_start_row rows index = Returns entry
              ∧ dict_get index d = Some entry)
  ∧ (∀ index, index ∉ column_indexes →
       dict_get index d = dict_get index results)
  ∧ (∀ index, index ∈ d.*1 ↔ index ∈ column_indexes ∨ index ∈ results.*1)
  ∧ (NoDup results.*1 → NoDup d.*1).
Proof.
  revert results. induction column_indexes as [|index l IH]; intros results.
  { intros [= <-]. split_and!; [by intros ? ?%elem_of_nil|done| |done].
    intros index. split; [by right|]. by intros [?%elem_of_nil|?]. }
  rewrite rows_for_indexes_cons.
  destruct (entry_for _ _ _ index) as [entry|e'] eqn:Hentry; simpl; [|done].
  intros (Hin & Hout & Hkeys & Hnd)%IH. split_and!.
  - intros i [->|Hi]%elem_of_cons; [|by apply Hin].
    destruct (decide (index ∈ l)) as [Hl|Hl]; [by apply Hin|].
    exists entry. split; [done|]. rewrite Hout by done.
    apply dict_get_set_eq.
  - intros i [Hne Hi]%not_elem_of_cons. rewrite Hout by done.
    by apply dict_get_set_ne.
  - intros i. rewrite Hkeys, dict_set_keys, elem_of_cons. tauto.
  - intros Hres. by apply Hnd, dict_set_NoDup.
Qed.

End rows_for_indexes.

(** X13. The dictionary [get_rows_for_indexes] returns has one key for
    each index asked for, once, and no other; under an index it holds what
    [get_x_rows_for_index] returns for that index, and the message
    "Invalid column index: ..." where [get_x_rows_for_index] raises its
    [ValueError]. *)
Theorem get_rows_for_indexes_entries (df : DataFrame)
    (column_indexes : list (option Z)) (header_start_row : option Z) (rows : Z)
    (d : list (option Z * column_entry)) :
  get_rows_for_indexes df column_indexes header_start_row rows = Returns d →
  NoDup d.*1
  ∧ (∀ index, index ∈ d.*1 ↔ index ∈ column_indexes)
  ∧ ∀ index, index ∈ column_indexes →
      match get_x_rows_for_index df index header_start_row rows with
      | Returns series => dict_get index d = Some (column_rows series)
      | Raises (Exc.ValueError _) =>
          dict_get index d
          = Some (invalid_column ("Invalid column index: " +:+ str_index index))
      | Raises _ => False
      end.
Proof.
  unfold get_rows_for_indexes.
  destruct column_indexes as [|index0 l] eqn:Hl; [done|]. rewrite <-Hl.
  intros (Hin & _ & Hkeys & Hnd)%rows_for_indexes_spec. split_and!.
  - apply Hnd. simpl. apply NoDup_nil. done.
  - intros index. rewrite Hkeys. split; [|by left].
    by intros [?|?%elem_of_nil].
  - intros index (entry & Hentry & Hget)%Hin. unfold entry_for in Hentry.
    destruct (get_x_rows_for_index _ _ _ _) as [s|[m| |]]; simpl in Hentry;
      try done; by injection Hentry as <-.
Qed.

Lemma get_rows_for_indexes_entries_witness :
  get_rows_for_indexes listing_frame [Some 2%Z; None; Some 7%Z; Some 2%Z]
                       (Some 1%Z) 2
  = Returns [(Some 2%Z, column_rows [Some "500000"; None]);
             (None, invalid_column "Invalid column index: None");
             (Some 7%Z, invalid_column "Invalid column index: 7")]
  ∧ NoDup [Some 2%Z; None; Some 7%Z]
  ∧ (∀ index, index ∈ [Some 2%Z; None; Some 7%Z]
              ↔ index ∈ [Some 2%Z; None; Some 7%Z; Some 2%Z])
  ∧ ∀ index, index ∈ [Some 2%Z; None; Some 7%Z; Some 2%Z] →
      match get_x_rows_for_index listing_frame index (Some 1%Z) 2 with
      | Returns series =>
          dict_get index
            [(Some 2%Z, column_rows [Some "500000"; None]);
             (None, invalid_column "Invalid column index: None");
             (Some 7%Z, invalid_column "Invalid column index: 7")]
          = Some (column_rows series)
      | Raises (Exc.ValueError _) =>
          dict_get index
            [(Some 2%Z, column_rows [Some "500000"; None]);
             (None, invalid_column "Invalid column index: None");
             (Some 7%Z, invalid_column "Invalid column index: 7")]
          = Some (invalid_column ("Invalid column index: " +:+ str_index index))
      | Raises _ => False
      end.
Proof.
  split; [reflexivity|].
  apply (get_rows_for_indexes_entries listing_frame
           [Some 2%Z; None; Some 7%Z; Some 2%Z] (Some 1%Z) 2
           [(Some 2%Z, column_rows [Some "500000"; None]);
            (None, invalid_column "Invalid column index: None");
            (Some 7%Z, invalid_column "Invalid column index: 7")]).
  reflexivity.
Defined.

(** X14. [get_rows_for_indexes] raises a [ValueError] exactly when it is
    given no index: an index that is [None] or too large is answered in the
    dictionary, where [get_x_rows_for_index] raises. *)
Theorem get_rows_for_indexes_ValueError (df : DataFrame)
    (column_indexes : list (option Z)) (header_start_row : option Z) (rows : Z) :
  (∃ message, get_rows_for_indexes df column_indexes header_start_row rows
              = Raises (Exc.ValueError message))
  ↔ column_indexes = [].
Proof.
  split.
  - intros [message Hraise]. destruct column_indexes as [|index l]; [done|].
    unfold get_rows_for_indexes in Hraise.
    by apply rows_for_indexes_raises in Hraise as [?|?].
  - intros ->. by eexists.
Qed.

(** ** [forward_fill_column] *)

Lemma length_ffill_from last series :
  length (ffill_from last series) = length series.
Proof.
  revert last. induction series as [|[s|] series IH]; intros last; simpl;
    by rewrite ?IH.
Qed.

Lemma ffill_from_present last series i s :
  series !! i = Some (Some s) → ffill_from last series !! i = Some (Some s).
Proof.
  revert last i. induction series as [|[s'|] series IH]; intros last [|i];
    simpl; try done; apply IH.
Qed.

Lemma ffill_from_first last series :
  series !! 0 = Some None → ffill_from last series !! 0 = Some last.
Proof. by destruct series as [|[s|] series]. Qed.

(** A missing value takes the value the fill gave to the one above. *)
Lemma ffill_from_below last series i :
  series !! S i = Some None →
  ffill_from last series !! S i = ffill_from last series !! i.
Proof.
  revert last i. induction series as [|v series IH]; intros last i; [done|].
  intros Hnone.
  assert (∀ last', ffill_from last' series !! i
                   = (last' :: ffill_from last' series) !! i) as Htail.
  { intros last'. destruct i as [|i]; [by apply ffill_from_first|].
    by apply IH. }
  destruct v as [s|]; simpl; apply Htail.
Qed.

Lemma ffill_from_idempotent last series :
  ffill_from last (ffill_from last series) = ffill_from last series.
Proof.
  revert last. induction series as [|[s|] series IH]; intros last; simpl.
  - done.
  - by rewrite IH.
  - destruct last as [s|]; simpl; by rewrite IH.
Qed.

Lemma ffill_idempotent series : ffill (ffill series) = ffill series.
Proof. apply ffill_from_idempotent. Qed.

Lemma set_column_lookup j series (rows : dataframe) i :
  set_column j series rows !! i
  = row ← rows !! i; v ← series !! i; Some (<[j := v]> row).
Proof. unfold set_column. apply lookup_zip_with. Qed.

Lemma cell_at_insert j v (row : list cell) :
  j < length row → cell_at j (<[j := v]> row) = v.
Proof. intros Hj. unfold cell_at. by rewrite list_lookup_insert_eq. Qed.

Section forward_fill.
Context (df : DataFrame) (c : nat).
Context (Hok : frame_ok df) (Hc : c < len_columns df).

Local Abbreviation filled := (ffill (cell_at c <$> values df)).

Lemma frame_ok_lookup i row :
  values df !! i = Some row → length row = len_columns df.
Proof.
  intros Hrow. unfold frame_ok in Hok. rewrite Forall_forall in Hok.
  apply Hok. by apply list_elem_of_lookup_2 in Hrow.
Qed.

Lemma forward_fill_column_eq :
  forward_fill_column df (Some (Z.of_nat c))
  = Returns ({| len_columns := len_columns df;
                values := set_column c filled (values df) |},
             "Forward-filled column at index: " +:+ str_int (Z.of_nat c)).
Proof.
  unfold forward_fill_column.
  rewrite (proj2 (Z.ltb_lt _ _)) by lia.
  by rewrite iloc_position_nonneg by done.
Qed.

Lemma filled_lookup i row :
  values df !! i = Some row →
  ∃ v, filled !! i = Some v
       ∧ set_column c filled (values df) !! i = Some (<[c := v]> row).
Proof.
  intros Hrow. destruct (lookup_lt_is_Some_2 filled i) as [v Hv].
  { unfold ffill. rewrite length_ffill_from, length_fmap.
    by apply lookup_lt_Some in Hrow. }
  exists v. split; [done|]. rewrite set_column_lookup, Hrow. simpl.
  by rewrite Hv.
Qed.

Lemma column_of_filled :
  cell_at c <$> set_column c filled (values df) = filled.
Proof.
  apply list_eq. intros i. rewrite list_lookup_fmap.
  destruct (values df !! i) as [row|] eqn:Hrow.
  - destruct (filled_lookup i row Hrow) as (v & Hv & ->). simpl.
    rewrite cell_at_insert; [by rewrite Hv|].
    by rewrite (frame_ok_lookup i row Hrow).
  - rewrite set_column_lookup, Hrow. simpl. symmetry.
    apply lookup_ge_None_2. unfold ffill.
    rewrite length_ffill_from, length_fmap. by apply lookup_ge_None_1.
Qed.

End forward_fill.

(** X15. Filling a column of the frame keeps the shape of the frame, the
    number of rows and of cells in each row, and leaves every other column
    as it is. *)
Theorem forward_fill_column_frame (df : DataFrame) (c : nat) :
  frame_ok df → c < len_columns df →
  ∃ df',
    forward_fill_column df (Some (Z.of_nat c))
    = Returns (df', "Forward-filled column at index: "
                    +:+ str_int (Z.of_nat c))
    ∧ len_columns df' = len_columns df
    ∧ length (values df') = length (values df)
    ∧ frame_ok df'
    ∧ ∀ i row, values df !! i = Some row →
        ∃ row', values df' !! i = Some row'
                ∧ ∀ j, j ≠ c → row' !! j = row !! j.
Proof.
  intros Hok Hc. eexists. split; [by apply forward_fill_column_eq|]. simpl.
  assert (length (set_column c (ffill (cell_at c <$> values df)) (values df))
          = length (values df)) as Hlen.
  { unfold set_column. rewrite length_zip_with_l_eq; [done|].
    unfold ffill. by rewrite length_ffill_from, length_fmap. }
  split_and!; [done..| |].
  - unfold frame_ok. simpl. apply Forall_lookup_2. intros i row' Hrow'.
    destruct (values df !! i) as [row|] eqn:Hrow.
    + destruct (filled_lookup df c i row Hrow) as (v & _ & Hset).
      rewrite Hset in Hrow'. injection Hrow' as <-.
      rewrite length_insert. by apply (frame_ok_lookup df Hok i).
    + apply lookup_lt_Some in Hrow'. apply lookup_ge_None_1 in Hrow. lia.
  - intros i row Hrow.
    destruct (filled_lookup df c i row Hrow) as (v & _ & Hset).
    eexists. split; [done|]. intros j Hj. by rewrite list_lookup_insert_ne.
Qed.

Lemma forward_fill_column_frame_witness :
  frame_ok listing_frame ∧ 1 < len_columns listing_frame
  ∧ ∃ df',
    forward_fill_column listing_frame (Some (Z.of_nat 1))
    = Returns (df', "Forward-filled column at index: "
                    +:+ str_int (Z.of_nat 1))
    ∧ len_columns df' = len_columns listing_frame
    ∧ length (values df') = length (values listing_frame)
    ∧ frame_ok df'
    ∧ ∀ i row, values listing_frame !! i = Some row →
        ∃ row', values df' !! i = Some row'
                ∧ ∀ j, j ≠ 1 → row' !! j = row !! j.
Proof.
  assert (frame_ok listing_frame) as Hok
    by (apply (bool_decide_unpack _); vm_compute; exact I).
  assert (1 < len_columns listing_frame) as Hc by (vm_compute; lia).
  split; [exact Hok|]. split; [exact Hc|].
  apply (forward_fill_column_frame listing_frame 1 Hok Hc).
Defined.

(** X16. In the filled column a present cell keeps its value, and a
    missing cell takes the value that the filled column has in the row
    above; the missing cells at the top of the column stay missing. *)
Theorem forward_fill_column_values (df : DataFrame) (c : nat) :
  frame_ok df → c < len_columns df →
  ∃ df' message,
    forward_fill_column df (Some (Z.of_nat c)) = Returns (df', message)
    ∧ ∀ i row, values df !! i = Some row →
        ∃ row', values df' !! i = Some row'
          ∧ match row !! c with
            | Some (Some s) => row' !! c = Some (Some s)
            | _ =>
                match i with
                | 0 => row' !! c = Some None
                | S i' => ∃ above, values df' !! i' = Some above
                                   ∧ row' !! c = above !! c
                end
            end.
Proof.
  intros Hok Hc. eexists _, _. split; [by apply forward_fill_column_eq|].
  simpl. intros i row Hrow.
  destruct (filled_lookup df c i row Hrow) as (v & Hv & Hset).
  exists (<[c := v]> row). split; [done|].
  assert (c < length row) as Hlen
    by (by rewrite (frame_ok_lookup df Hok i row Hrow)).
  rewrite list_lookup_insert_eq by done.
  destruct (lookup_lt_is_Some_2 row c Hlen) as [cell Hcell].
  assert ((cell_at c <$> values df) !! i = Some cell) as Hcol.
  { rewrite list_lookup_fmap, Hrow. simpl. unfold cell_at. by rewrite Hcell. }
  rewrite Hcell. destruct cell as [s|].
  - apply (ffill_from_present None) in Hcol. unfold ffill in Hv. congruence.
  - destruct i as [|i'].
    + apply (ffill_from_first None) in Hcol. unfold ffill in Hv. congruence.
    + apply (ffill_from_below None) in Hcol.
      destruct (lookup_lt_is_Some_2 (values df) i') as [above Habove].
      { apply lookup_lt_Some in Hrow. lia. }
      destruct (filled_lookup df c i' above Habove) as (w & Hw & Hset').
      exists (<[c := w]> above). split; [done|].
      rewrite list_lookup_insert_eq
        by (by rewrite (frame_ok_lookup df Hok i' above Habove)).
      unfold ffill in Hv, Hw. congruence.
Qed.

Lemma forward_fill_column_values_witness :
  frame_ok listing_frame ∧ 1 < len_columns listing_frame
  ∧ ∃ df' message,
    forward_fill_column listing_frame (Some (Z.of_nat 1))
    = Returns (df', message)
    ∧ ∀ i row, values listing_frame !! i = Some row →
        ∃ row', values df' !! i = Some row'
          ∧ match row !! 1 with
            | Some (Some s) => row' !! 1 = Some (Some s)
            | _ =>
                match i with
                | 0 => row' !! 1 = Some None
                | S i' => ∃ above, values df' !! i' = Some above
                                   ∧ row' !! 1 = above !! 1
                end
            end.
Proof.
  assert (frame_ok listing_frame) as Hok
    by (apply (bool_decide_unpack _); vm_compute; exact I).
  assert (1 < len_columns listing_frame) as Hc by (vm_compute; lia).
  split; [exact Hok|]. split; [exact Hc|].
  apply (forward_fill_column_values listing_frame 1 Hok Hc).
Defined.

(** X17. Filling a column twice is filling it once: the frame returned
    is a fixed point of the fill of that column. *)
Theorem forward_fill_column_idempotent (df : DataFrame) (c : nat) :
  frame_ok df → c < len_columns df →
  ∃ df' message,
    forward_fill_column df (Some (Z.of_nat c)) = Returns (df', message)
    ∧ forward_fill_column df' (Some (Z.of_nat c)) = Returns (df', message).
Proof.
  intros Hok Hc. eexists _, _. split; [by apply forward_fill_column_eq|].
  unfold forward_fill_column. simpl.
  rewrite (proj2 (Z.ltb_lt _ _)) by lia.
  rewrite iloc_position_nonneg by done. simpl.
  rewrite (column_of_filled df c Hok Hc), ffill_idempotent.
  do 3 f_equal. apply list_eq. intros i.
  rewrite !set_column_lookup.
  destruct (values df !! i) as [row|]; simpl; [|done].
  destruct (ffill (cell_at c <$> values df) !! i) as [v|]; simpl; [|done].
  by rewrite list_insert_insert_eq.
Qed.

Lemma forward_fill_column_idempotent_witness :
  frame_ok listing_frame ∧ 1 < len_columns listing_frame
  ∧ ∃ df' message,
    forward_fill_column listing_frame (Some (Z.of_nat 1))
    = Returns (df', message)
    ∧ forward_fill_column df' (Some (Z.of_nat 1)) = Returns (df', message).
Proof.
  assert (frame_ok listing_frame) as Hok
    by (apply (bool_decide_unpack _); vm_compute; exact I).
  assert (1 < len_columns listing_frame) as Hc by (vm_compute; lia).
  split; [exact Hok|]. split; [exact Hc|].
  apply (forward_fill_column_idempotent listing_frame 1 Hok Hc).
Defined.

(** ** From [parse_csv] to the rows of a column *)

Lemma dict_get_indices_of d (collected : gmap string nat) h :
  dict_get h (indices_of d collected)
  = if decide (h ∈ d.*1) then collected !! h else None.
Proof.
  unfold indices_of. induction d.*1 as [|key keys IH]; [done|]. simpl.
  destruct (collected !! key) as [j|] eqn:Hkey; simpl.
  - destruct (decide (key = h)) as [->|Hne].
    + rewrite decide_True by (by left). by rewrite Hkey.
    + etrans; [exact IH|]. apply decide_ext. rewrite elem_of_cons.
      split; [by right|]. by intros [?|?].
  - etrans; [exact IH|]. destruct (decide (key = h)) as [->|Hne].
    + rewrite (decide_True (P := h ∈ h :: keys)) by (by left).
      rewrite Hkey. by case_decide.
    + apply decide_ext. rewrite elem_of_cons.
      split; [by right|]. by intros [?|?].
Qed.

Lemma indices_of_key d (collected : gmap string nat) h j :
  (h, j) ∈ indices_of d collected → h ∈ d.*1.
Proof.
  unfold indices_of. rewrite list_elem_of_omap.
  intros (key & Hkey & Hsome). destruct (collected !! key); [|done].
  simpl in Hsome. by injection Hsome as <- <-.
Qed.

(** What a successful [parse_csv] reports, on a frame whose rows all have
    [len_columns] cells: columns of the frame, for every required header,
    and with a start row as soon as a column is reported. *)
Lemma parsed_columns (self : CSVParser) (df : DataFrame) start hi oi :
  frame_ok df →
  parse_csv self (values df) = parsed start hi oi →
  (∀ h j, (h, j) ∈ hi ++ oi → j < len_columns df ∧ is_Some start)
  ∧ (∀ h, h ∈ (required_headers self).*1 →
          ∃ j, dict_get h hi = Some j ∧ (h, j) ∈ hi).
Proof.
  intros Hok Hparse.
  destruct (iterrows_accounted self (window self (values df)))
    as (st & Hst & Hacc & Hlast).
  destruct (iterrows_present self (window self (values df)))
    as (st' & Hst' & Hpresent).
  rewrite Hst in Hst'. injection Hst' as <-.
  apply find_header_row_result in Hst.
  unfold parse_csv in Hparse. rewrite Hst in Hparse.
  case_bool_decide as Hmiss; [done|]. injection Hparse as <- <- <-.
  rewrite missing_headers_result_of in Hmiss.
  assert (missing_required_headers st = []) as Hnil
    by (destruct (missing_required_headers st); [done|simpl in Hmiss; lia]).
  assert (∀ h j, collected_headers st !! h = Some j → j < len_columns df)
    as Hbound.
  { intros h j (row & s & _ & Hrow & Hcell & _)%Hpresent.
    apply df_head_subseteq in Hrow. unfold frame_ok in Hok.
    rewrite Forall_forall in Hok. rewrite <-(Hok row Hrow).
    by apply lookup_lt_Some in Hcell. }
  split.
  - intros h j Hin.
    assert (collected_headers st !! h = Some j
            ∧ header_start_row (result_of self st) = S <$> last_match_row st)
      as [Hc Hstart].
    { unfold result_of in *. case_bool_decide as Hempty; simpl in *.
      - by apply elem_of_nil in Hin.
      - split; [|done].
        apply elem_of_app in Hin as [Hin|Hin]; by apply indices_of_elem_of in Hin. }
    split; [by apply (Hbound h)|]. rewrite Hstart.
    destruct (Hlast h) as [i ->]; [by rewrite Hc|]. by eexists.
  - intros h Hh. rewrite header_indices_result_of.
    destruct (Hacc h Hh) as [Hin|[j Hj]].
    { rewrite Hnil in Hin. by apply elem_of_nil in Hin. }
    exists j. rewrite dict_get_indices_of, decide_True by done.
    split; [done|]. unfold indices_of. apply list_elem_of_omap.
    exists h. split; [done|]. by rewrite Hj.
Qed.

(** X18. What a successful [parse_csv] reports can be handed to
    [get_x_rows_for_index] as it is: on a frame whose rows all have
    [len_columns] cells, for every column reported for a required or an
    optional header, with the reported start row, it returns the rows below
    the last header row, [x] of them or as many as the frame has. *)
Theorem parse_then_fetch (self : CSVParser) (df : DataFrame) start hi oi
    (h : string) (j x : nat) :
  frame_ok df →
  parse_csv self (values df) = parsed start hi oi →
  (h, j) ∈ hi ++ oi →
  ∃ s series,
    start = Some s
    ∧ get_x_rows_for_index df (Some (Z.of_nat j)) (Z.of_nat <$> start)
                           (Z.of_nat x)
      = Returns series
    ∧ length series = x `min` (length (values df) - s).
Proof.
  intros Hok Hparse Hin.
  destruct (parsed_columns self df start hi oi Hok Hparse) as [Hcols _].
  destruct (Hcols h j Hin) as [Hj [s ->]]. exists s. simpl.
  unfold get_x_rows_for_index, iloc_rows_column.
  rewrite (proj2 (Z.leb_gt _ _)) by lia.
  rewrite iloc_position_nonneg by done. simpl.
  eexists. split; [done|]. split; [done|].
  by rewrite length_fmap, length_slice.
Qed.

Lemma parse_then_fetch_witness :
  frame_ok listing_frame
  ∧ parse_csv two_rows (values listing_frame)
    = parsed (Some 1) [("Address", 0); ("Price", 2)] [("Notes", 1)]
  ∧ ("Notes", 1) ∈ [("Address", 0); ("Price", 2)] ++ [("Notes", 1)]
  ∧ ∃ s series,
    Some 1 = Some s
    ∧ get_x_rows_for_index listing_frame (Some (Z.of_nat 1))
        (Z.of_nat <$> Some 1) (Z.of_nat 3)
      = Returns series
    ∧ length series = 3 `min` (length (values listing_frame) - s).
Proof.
  assert (frame_ok listing_frame) as Hok
    by (apply (bool_decide_unpack _); vm_compute; exact I).
  assert (("Notes", 1) ∈ [("Address", 0); ("Price", 2)] ++ [("Notes", 1)])
    as Hin by (right; right; left).
  split; [exact Hok|]. split; [reflexivity|]. split; [exact Hin|].
  apply (parse_then_fetch two_rows listing_frame (Some 1)
           [("Address", 0); ("Price", 2)] [("Notes", 1)] "Notes" 1 3 Hok);
    [reflexivity|exact Hin].
Defined.

(** ** The script *)

Lemma dict_set_Forall {K V} `{EqDecision K} (P : K * V → Prop) k v d :
  P (k, v) → Forall P d → Forall P (dict_set k v d).
Proof.
  intros Hkv. induction d as [|[k' v'] d IH]; simpl.
  - intros _. by apply Forall_singleton.
  - intros [Hhd Htl]%Forall_cons. destruct (decide (k' = k)).
    + by apply Forall_cons.
    + apply Forall_cons. split; [done|]. by apply IH.
Qed.

(** With columns of the frame and a start row that is set, the loop of
    [get_rows_for_indexes] does not raise and files rows only. *)
Lemma rows_for_indexes_valid (df : DataFrame) (columns : list nat)
    (s : nat) (rows : Z) results :
  Forall (λ j, j < len_columns df) columns →
  Forall (λ kv, ∃ j series, kv = (Some j, column_rows series)) results →
  ∃ d, rows_for_indexes df ((λ j, Some (Z.of_nat j)) <$> columns)
                        (Some (Z.of_nat s)) rows results
       = Returns d
    ∧ Forall (λ kv, ∃ j series, kv = (Some j, column_rows series)) d.
Proof.
  revert results. induction columns as [|j columns IH]; intros results.
  { intros _ Hres. by exists results. }
  intros [Hj Hcols]%Forall_cons Hres. rewrite fmap_cons. simpl.
  rewrite (proj2 (Z.leb_gt _ _)) by lia.
  unfold iloc_rows_column. rewrite iloc_position_nonneg by done. simpl.
  apply IH; [done|]. apply dict_set_Forall; [by eexists _, _|done].
Qed.

(** Assigning, under a key that a function [g] builds, the value [g]
    builds for it: the key is added at the end, unless it is there. *)
Lemma dict_set_fmap {K V} `{EqDecision K} (key : nat → K) (f : nat → V)
    `{!Inj (=) (=) key} (j : nat) (keys : list nat) :
  dict_set (key j) (f j) ((λ k, (key k, f k)) <$> keys)
  = (λ k, (key k, f k)) <$> add_distinct j keys.
Proof.
  unfold add_distinct. induction keys as [|k keys IH].
  { case_decide as Hin; [by apply elem_of_nil in Hin|done]. }
  rewrite fmap_cons. cbn [dict_set].
  destruct (decide (key k = key j)) as [Heq|Hne].
  - apply (inj key) in Heq as ->. by rewrite decide_True by (by left).
  - rewrite IH. destruct (decide (j ∈ keys)) as [Hin|Hout].
    + by rewrite decide_True by (by right).
    + rewrite decide_False; [done|].
      intros [->|?]%elem_of_cons; [by apply Hne|done].
Qed.

(** With columns of the frame and a start row that is set, the loop of
    [get_rows_for_indexes] files the rows of each requested column under
    its index, once, in the order of the first requests. *)
Lemma rows_for_indexes_distinct (df : DataFrame) (columns : list nat)
    (s : nat) (rows : Z) (keys : list nat) :
  Forall (λ j, j < len_columns df) columns →
  rows_for_indexes df ((λ j, Some (Z.of_nat j)) <$> columns)
    (Some (Z.of_nat s)) rows
    ((λ j, (Some (Z.of_nat j),
            column_rows (cell_at j <$> slice (Z.of_nat s) (Z.of_nat s + rows)
                                             (values df)))) <$> keys)
  = Returns
      ((λ j, (Some (Z.of_nat j),
              column_rows (cell_at j <$> slice (Z.of_nat s) (Z.of_nat s + rows)
                                               (values df))))
         <$> foldl (λ keys j, add_distinct j keys) keys columns).
Proof.
  revert keys. induction columns as [|j columns IH]; intros keys; [done|].
  intros [Hj Hcols]%Forall_cons. rewrite fmap_cons. simpl.
  rewrite (proj2 (Z.leb_gt _ _)) by lia.
  unfold iloc_rows_column. rewrite iloc_position_nonneg by done. simpl.
  rewrite <-(IH (add_distinct j keys) Hcols). f_equal.
  apply (dict_set_fmap (λ k, Some (Z.of_nat k))
           (λ k, column_rows (cell_at k <$> slice (Z.of_nat s)
                                 (Z.of_nat s + rows) (values df)))).
Qed.

(** X19. The script never prints the error of [parse_csv]: an error
    dictionary makes its first statement raise a [ValueError]. When
    [parse_csv] succeeds, on a frame whose rows all have [len_columns]
    cells, the script does not raise and prints no message of an invalid
    index: it prints the rows of the "Address" column from the start row
    on, then, for the columns of "Address", "Price" and "Bedrooms", each
    once and in this order, the rows that [get_x_rows_for_index] returns
    for the column. *)
Theorem main_outcome (df : DataFrame) :
  frame_ok df →
  match parse_csv example_parser (values df) with
  | parsed start hi oi =>
      ∃ s a p b (fetch : nat → list cell),
        start = Some s
        ∧ dict_get "Address" hi = Some a
        ∧ dict_get "Price" hi = Some p
        ∧ dict_get "Bedrooms" hi = Some b
        ∧ (∀ j, j ∈ [a; p; b] →
             get_x_rows_for_index df (Some (Z.of_nat j)) (Some (Z.of_nat s)) 3
             = Returns (fetch j))
        ∧ main df
          = Returns (line (newline +:+ "First three addresses:")
                     :: series_value (fetch a)
                     :: line (newline +:+ "Rows for requested columns:")
                     :: ((λ j, column_block (Some (Z.of_nat j))
                                            (column_rows (fetch j)))
                           <$> distinct_in_order [a; p; b]))
        ∧ Forall is_column_rows
            ((λ j, column_block (Some (Z.of_nat j)) (column_rows (fetch j)))
               <$> distinct_in_order [a; p; b])
  | _ => main df = Raises unpacking_error
  end.
Proof.
  intros Hok. unfold main.
  destruct (parse_csv example_parser (values df)) as [m|e|start hi oi] eqn:Hparse;
    [done..|].
  destruct (parsed_columns example_parser df start hi oi Hok Hparse)
    as [Hcols Hreq].
  destruct (Hreq "Address") as (a & Ha & Hina); [by left|].
  destruct (Hreq "Price") as (p & Hp & Hinp); [right; by left|].
  destruct (Hreq "Bedrooms") as (b & Hb & Hinb); [right; right; by left|].
  destruct (Hcols "Address" a) as [Hlta [s ->]]; [apply elem_of_app; by left|].
  destruct (Hcols "Price" p) as [Hltp _]; [apply elem_of_app; by left|].
  destruct (Hcols "Bedrooms" b) as [Hltb _]; [apply elem_of_app; by left|].
  set (fetch := λ j : nat,
         cell_at j <$> slice (Z.of_nat s) (Z.of_nat s + 3) (values df)).
  assert (∀ j, j < len_columns df →
            get_x_rows_for_index df (Some (Z.of_nat j)) (Some (Z.of_nat s)) 3
            = Returns (fetch j)) as Hget.
  { intros j Hj. unfold get_x_rows_for_index, iloc_rows_column.
    rewrite (proj2 (Z.leb_gt _ _)) by lia.
    by rewrite iloc_position_nonneg by done. }
  assert (get_rows_for_indexes df
            [Some (Z.of_nat a); Some (Z.of_nat p); Some (Z.of_nat b)]
            (Some (Z.of_nat s)) 3
          = Returns ((λ j, (Some (Z.of_nat j), column_rows (fetch j)))
                       <$> distinct_in_order [a; p; b])) as Hrows_for.
  { apply (rows_for_indexes_distinct df [a; p; b] s 3 []).
    by repeat apply Forall_cons_2. }
  cbn -[get_x_rows_for_index get_rows_for_indexes dict_get newline].
  rewrite Ha, Hp, Hb.
  cbn -[get_x_rows_for_index get_rows_for_indexes dict_get newline].
  rewrite (Hget a Hlta), Hrows_for.
  cbn -[get_x_rows_for_index get_rows_for_indexes dict_get newline
        distinct_in_order].
  exists s, a, p, b, fetch. split_and!; [done..| | |].
  - intros j Hj. apply Hget.
    repeat (apply elem_of_cons in Hj as [->|Hj]; [done|]).
    by apply elem_of_nil in Hj.
  - by rewrite <-list_fmap_compose.
  - apply Forall_fmap, Forall_forall. intros j _. by eexists _, _.
Qed.

Lemma main_outcome_witness :
  frame_ok houses_frame
  ∧ match parse_csv example_parser (values houses_frame) with
    | parsed start hi oi =>
        ∃ s a p b (fetch : nat → list cell),
          start = Some s
          ∧ dict_get "Address" hi = Some a
          ∧ dict_get "Price" hi = Some p
          ∧ dict_get "Bedrooms" hi = Some b
          ∧ (∀ j, j ∈ [a; p; b] →
               get_x_rows_for_index houses_frame (Some (Z.of_nat j))
                 (Some (Z.of_nat s)) 3
               = Returns (fetch j))
          ∧ main houses_frame
            = Returns (line (newline +:+ "First three addresses:")
                       :: series_value (fetch a)
                       :: line (newline +:+ "Rows for requested columns:")
                       :: ((λ j, column_block (Some (Z.of_nat j))
                                              (column_rows (fetch j)))
                             <$> distinct_in_order [a; p; b]))
          ∧ Forall is_column_rows
              ((λ j, column_block (Some (Z.of_nat j)) (column_rows (fetch j)))
                 <$> distinct_in_order [a; p; b])
    | _ => main houses_frame = Raises unpacking_error
    end.
Proof.
  assert (frame_ok houses_frame) as Hok
    by (apply (bool_decide_unpack _); vm_compute; exact I).
  split; [exact Hok|]. apply (main_outcome houses_frame Hok).
Defined.
